(** * Email verifier: the per-domain check and the worker pipeline

    A shallow embedding of [checkDomain] and of the worker pipeline of
    [main] of the email verifier (package [main], Go).  Network and clock
    are an abstract, stateful [World]; every call of the program on the
    [net] and [time] packages goes through it and is recorded in a trace. *)

From Stdlib Require Import String Ascii List Bool Arith ZArith Lia.
From Stdlib Require Import Permutation Sorted.
Import ListNotations.
Local Open Scope string_scope.
Local Open Scope list_scope.

(** ** Go's [strings] and [net] helpers used by the program *)

Module GoStrings.

(** [strings.HasPrefix]: [len(s) >= len(prefix) && s[:len(prefix)] == prefix]. *)
Definition HasPrefix (s prefix : string) : bool :=
  (String.length prefix <=? String.length s)%nat
  && (substring 0 (String.length prefix) s =? prefix).

(** [strings.HasSuffix]:
    [len(s) >= len(suffix) && s[len(s)-len(suffix):] == suffix]. *)
Definition HasSuffix (s suffix : string) : bool :=
  (String.length suffix <=? String.length s)%nat
  && (substring (String.length s - String.length suffix)
                (String.length suffix) s =? suffix).

(** [strings.TrimSuffix]: [s] without the suffix when it has it, else [s]. *)
Definition TrimSuffix (s suffix : string) : string :=
  if HasSuffix s suffix
  then substring 0 (String.length s - String.length suffix) s
  else s.

(** [bytealg.IndexByteString(s, c) >= 0]. *)
Fixpoint ContainsByte (s : string) (c : ascii) : bool :=
  match s with
  | EmptyString => false
  | String a s' => if Ascii.eqb a c then true else ContainsByte s' c
  end.

(** [net.JoinHostPort]: ["host:port"], or ["[host]:port"] when the host
    holds a colon. *)
Definition JoinHostPort (host port : string) : string :=
  if ContainsByte host ":"%char
  then ("[" ++ host ++ "]:" ++ port)%string
  else (host ++ ":" ++ port)%string.

End GoStrings.
Import GoStrings.

(** ** Errors

    The two error types of package [net] that reach the program, with the
    text their [Error()] methods give. *)

Inductive error : Type :=
| DNSError (Err Name Server : string)
| OpError (Op Net : string) (Source Addr : option string) (Err : string).

Definition ErrorText (e : error) : string :=
  (match e with
  | DNSError err name server =>
      let s := "lookup " ++ name in
      let s := if (server =? "") then s else s ++ " on " ++ server in
      s ++ ": " ++ err
  | OpError op net source addr err =>
      let s := op in
      let s := if (net =? "") then s else s ++ " " ++ net in
      let s := match source with
               | Some src => s ++ " " ++ src
               | None => s
               end in
      let s := match addr with
               | Some a =>
                   (match source with
                    | Some _ => s ++ "->"
                    | None => s ++ " "
                    end) ++ a
               | None => s
               end in
      s ++ ": " ++ err
  end)%string.

(** ** Data model *)

(** [type Result struct]. *)
Record Result : Type := mkResult {
  Domain : string;
  HasMX : bool;
  MXHosts : list string;
  HasSPF : bool;
  SPF : string;
  HasDMARC : bool;
  DMARC : string;
  SMTPReach : bool;
  LatencyMs : Z;
  Error : string
}.

(** [Result{Domain: domain}]: every other field holds its zero value. *)
Definition newResult (domain : string) : Result :=
  mkResult domain false [] false "" false "" false 0 "".

Definition set_HasMX (b : bool) (r : Result) : Result :=
  mkResult (Domain r) b (MXHosts r) (HasSPF r) (SPF r) (HasDMARC r)
           (DMARC r) (SMTPReach r) (LatencyMs r) (Error r).
Definition set_MXHosts (l : list string) (r : Result) : Result :=
  mkResult (Domain r) (HasMX r) l (HasSPF r) (SPF r) (HasDMARC r)
           (DMARC r) (SMTPReach r) (LatencyMs r) (Error r).
Definition set_HasSPF (b : bool) (r : Result) : Result :=
  mkResult (Domain r) (HasMX r) (MXHosts r) b (SPF r) (HasDMARC r)
           (DMARC r) (SMTPReach r) (LatencyMs r) (Error r).
Definition set_SPF (s : string) (r : Result) : Result :=
  mkResult (Domain r) (HasMX r) (MXHosts r) (HasSPF r) s (HasDMARC r)
           (DMARC r) (SMTPReach r) (LatencyMs r) (Error r).
Definition set_HasDMARC (b : bool) (r : Result) : Result :=
  mkResult (Domain r) (HasMX r) (MXHosts r) (HasSPF r) (SPF r) b
           (DMARC r) (SMTPReach r) (LatencyMs r) (Error r).
Definition set_DMARC (s : string) (r : Result) : Result :=
  mkResult (Domain r) (HasMX r) (MXHosts r) (HasSPF r) (SPF r) (HasDMARC r)
           s (SMTPReach r) (LatencyMs r) (Error r).
Definition set_SMTPReach (b : bool) (r : Result) : Result :=
  mkResult (Domain r) (HasMX r) (MXHosts r) (HasSPF r) (SPF r) (HasDMARC r)
           (DMARC r) b (LatencyMs r) (Error r).
Definition set_LatencyMs (z : Z) (r : Result) : Result :=
  mkResult (Domain r) (HasMX r) (MXHosts r) (HasSPF r) (SPF r) (HasDMARC r)
           (DMARC r) (SMTPReach r) z (Error r).
Definition set_Error (s : string) (r : Result) : Result :=
  mkResult (Domain r) (HasMX r) (MXHosts r) (HasSPF r) (SPF r) (HasDMARC r)
           (DMARC r) (SMTPReach r) (LatencyMs r) s.

(** [net.MX]. *)
Record MX : Type := mkMX { Host : string; Pref : Z }.

(** ** The world: resolver, dialer and clock

    A connection is given by what the successive calls of [ReadString]
    will return on it: a line, or [None] for a read that fails.
    [conn.SetDeadline] bounds the exchange, so the reads after these all
    fail (end of stream or deadline). *)

Definition Conn : Type := list (option string).

Class Network (World : Type) : Type := {
  (** [net.LookupMX]: the records and the error (both can be set). *)
  LookupMX : string -> World -> (list MX * option error) * World;
  (** [net.LookupTXT]. *)
  LookupTXT : string -> World -> (list string * option error) * World;
  (** [(&net.Dialer{}).DialContext(ctx, network, addr)] under the 6 s
      timeout: a connection or the dial error. *)
  DialContext : string -> string -> World -> (Conn + error) * World;
  (** [time.Now()], in nanoseconds. *)
  Now : World -> Z * World
}.

(** What the program did on the network and the clock, in order. *)
Inductive Event : Type :=
| EvLookupMX (name : string)
| EvLookupTXT (name : string)
| EvNow (t : Z)
| EvDial (addr : string) (err : option error)
| EvRead (line : option string)
| EvWrite (data : string)
| EvClose.

Definition CRLF : string := String "013" (String "010" EmptyString).

(** [time.Duration] arithmetic. *)
Definition Millisecond : Z := 1000000.
Definition Second : Z := 1000000000.
Definition minDuration : Z := - 2 ^ 63.
Definition maxDuration : Z := 2 ^ 63 - 1.

(** [t.Sub(u)]: the difference, saturated to the range of [Duration]. *)
Definition Sub (t u : Z) : Z :=
  let d := (t - u)%Z in
  if (d <? minDuration)%Z then minDuration
  else if (maxDuration <? d)%Z then maxDuration
  else d.

(** [d.Milliseconds()]: [int64(d) / 1e6]. *)
Definition Milliseconds (d : Z) : Z := Z.quot d Millisecond.

(** The dial attempts of a trace, with their errors. *)
Fixpoint dialsOf (tr : list Event) : list (string * option error) :=
  match tr with
  | [] => []
  | EvDial addr err :: tr' => (addr, err) :: dialsOf tr'
  | _ :: tr' => dialsOf tr'
  end.

(** A network for examples: one domain with two mail hosts, of which only
    the second accepts connections; the clock advances by 2 ms at each
    reading. *)
Module Demo.

Definition refused (addr : string) : error :=
  OpError "dial" "tcp" None (Some addr) "connect: connection refused".

Definition noSuchHost (name : string) : error :=
  DNSError "no such host" name "".

#[export] Instance net : Network Z := {|
  LookupMX name w :=
    (if name =? "example.com"
     then ([mkMX "mx1.example.com." 10; mkMX "mx2.example.com." 20], None)
     else ([], Some (noSuchHost name)), w);
  LookupTXT name w :=
    (if name =? "example.com"
     then (["other=1"; "v=spf1 include:_spf.example.com ~all"; "v=spf1 -all"],
           None)
     else if name =? "_dmarc.example.com"
     then (["v=DMARC1; p=reject"], None)
     else ([], Some (noSuchHost name)), w);
  DialContext network addr w :=
    (if addr =? "mx2.example.com:25"
     then inl [Some "220 mx2 ESMTP"; Some "250-mx2 greets you";
               Some "250-SIZE 1000"; Some "250 HELP"; Some "221 bye"]
     else inr (refused addr), w);
  Now w := (w, (w + 2000000)%Z)
|}.

End Demo.

Section Verifier.

Context {World : Type} {net : Network World}.

(** Computations on the world: the value, the events of the computation
    and the world it leaves. *)
Definition IO (A : Type) : Type := World -> A * list Event * World.

Definition ret {A} (a : A) : IO A := fun w => (a, [], w).
Definition bind {A B} (c : IO A) (k : A -> IO B) : IO B :=
  fun w =>
    let '(a, tr1, w1) := c w in
    let '(b, tr2, w2) := k a w1 in
    (b, tr1 ++ tr2, w2).

Notation "x <- c ;; k" := (bind c (fun x => k))
  (at level 61, c at next level, right associativity).
Notation "' pat <- c ;; k" := (bind c (fun x => match x with pat => k end))
  (at level 61, pat pattern, c at next level, right associativity).
Notation "c ;;; k" := (bind c (fun _ => k))
  (at level 61, right associativity).

Definition outcome {A} (c : IO A) (w : World) : A := fst (fst (c w)).
Definition events {A} (c : IO A) (w : World) : list Event := snd (fst (c w)).
Definition after {A} (c : IO A) (w : World) : World := snd (c w).

Definition emit (e : Event) : IO unit := fun w => (tt, [e], w).

Definition lookupMX (name : string) : IO (list MX * option error) :=
  fun w => let (r, w') := LookupMX name w in (r, [EvLookupMX name], w').

Definition lookupTXT (name : string) : IO (list string * option error) :=
  fun w => let (r, w') := LookupTXT name w in (r, [EvLookupTXT name], w').

Definition dial (addr : string) : IO (Conn + error) :=
  fun w =>
    let (r, w') := DialContext "tcp" addr w in
    (r, [EvDial addr (match r with inl _ => None | inr e => Some e end)], w').

Definition now : IO Z :=
  fun w => let (t, w') := Now w in (t, [EvNow t], w').

(** *** Stages of [checkDomain] *)

(** Lines 246-252: the MX block. *)
Definition mxStage (res : Result) (mxRecords : list MX) (err : option error)
  : Result :=
  match err, mxRecords with
  | None, _ :: _ =>
      let res := set_HasMX true res in
      fold_left
        (fun res mx =>
           let host := TrimSuffix (Host mx) "." in
           set_MXHosts (MXHosts res ++ [host]) res)
        mxRecords res
  | _, _ => res
  end.

(** Lines 257-263: the scan for the SPF record, leaving at the first match. *)
Fixpoint scanSPF (txtRecords : list string) (res : Result) : Result :=
  match txtRecords with
  | [] => res
  | record :: rest =>
      if HasPrefix record "v=spf1"
      then set_SPF record (set_HasSPF true res)
      else scanSPF rest res
  end.

Definition spfStage (res : Result) (txtRecords : list string)
  (err : option error) : Result :=
  match err with
  | None => scanSPF txtRecords res
  | Some _ => res
  end.

(** Lines 270-276: the scan for the DMARC record. *)
Fixpoint scanDMARC (dmarcTxtRecords : list string) (res : Result) : Result :=
  match dmarcTxtRecords with
  | [] => res
  | record :: rest =>
      if HasPrefix record "v=DMARC1"
      then set_DMARC record (set_HasDMARC true res)
      else scanDMARC rest res
  end.

Definition dmarcStage (res : Result) (dmarcTxtRecords : list string)
  (err : option error) : Result :=
  match err with
  | None => scanDMARC dmarcTxtRecords res
  | Some _ => res
  end.

(** [len(line) < 4 || line[3] != '-']: the line ends the EHLO response. *)
Definition endsResponse (line : string) : bool :=
  (String.length line <? 4)%nat
  || negb (match String.get 3 line with
           | Some c => Ascii.eqb c "-"%char
           | None => false
           end).

(** [br.ReadString('\n')] on the buffered reader of a connection. *)
Definition ReadString (br : Conn) : IO (option string * Conn) :=
  match br with
  | [] => emit (EvRead None) ;;; ret (None, [])
  | line :: br' => emit (EvRead line) ;;; ret (line, br')
  end.

(** Lines 304-312: read the EHLO response.  Each turn is one
    [br.ReadString]: when it fails the loop leaves; on a line the loop
    leaves unless the line is a continuation line. *)
Fixpoint readResponse (br : Conn) : IO Conn :=
  match br with
  | [] => emit (EvRead None) ;;; ret []
  | None :: br' => emit (EvRead None) ;;; ret br'
  | Some line :: br' =>
      emit (EvRead (Some line)) ;;;
      if endsResponse line then ret br' else readResponse br'
  end.

(** Lines 297-314: the exchange on an open connection. *)
Definition smtpDialog (conn : Conn) : IO unit :=
  _ <- now ;;                           (* conn.SetDeadline(time.Now()...) *)
  '(_, br) <- ReadString conn ;;        (* read greet *)
  emit (EvWrite ("EHLO example.com" ++ CRLF)%string) ;;;
  _ <- readResponse br ;;
  emit (EvWrite ("QUIT" ++ CRLF)%string) ;;;
  emit EvClose.

(** Lines 286-319: the loop over the probe targets, with the loop state
    [res], [lastErr]. *)
Fixpoint probeTargets (targets : list string) (res : Result)
  (lastErr : option error) : IO (Result * option error) :=
  match targets with
  | [] => ret (res, lastErr)
  | h :: rest =>
      let addr := JoinHostPort h "25" in
      start <- now ;;
      r <- dial addr ;;
      match r with
      | inr err => probeTargets rest res (Some err)       (* continue *)
      | inl conn =>
          smtpDialog conn ;;;
          let res := set_SMTPReach true res in
          t <- now ;;                                       (* time.Since *)
          let res := set_LatencyMs (Milliseconds (Sub t start)) res in
          ret (res, None)                                   (* break *)
      end
  end.

(** Lines 281-284: the probe targets. *)
Definition probeTargetsOf (domain : string) (res : Result) : list string :=
  match MXHosts res with
  | [] => [domain]
  | _ :: _ => MXHosts res
  end.

(** Lines 280-323: the SMTP block. *)
Definition smtpStage (domain : string) (res : Result) : IO Result :=
  let targets := probeTargetsOf domain res in
  '(res, lastErr) <- probeTargets targets res None ;;
  match lastErr with
  | Some e => ret (set_Error (ErrorText e) res)
  | None => ret res
  end.

(** [func checkDomain(domain string, smtpCheck bool) Result]. *)
Definition checkDomain (domain : string) (smtpCheck : bool) : IO Result :=
  let res := newResult domain in
  '(mxRecords, err) <- lookupMX domain ;;
  let res := mxStage res mxRecords err in
  '(txtRecords, err) <- lookupTXT domain ;;
  let res := spfStage res txtRecords err in
  let dmarcDomain := ("_dmarc." ++ domain)%string in
  '(dmarcTxtRecords, err) <- lookupTXT dmarcDomain ;;
  let res := dmarcStage res dmarcTxtRecords err in
  if smtpCheck then smtpStage domain res else ret res.

(** Lines 242-277 alone: the record when the three lookups are done. *)
Definition dnsStages (domain : string) : IO Result :=
  let res := newResult domain in
  '(mxRecords, err) <- lookupMX domain ;;
  let res := mxStage res mxRecords err in
  '(txtRecords, err) <- lookupTXT domain ;;
  let res := spfStage res txtRecords err in
  let dmarcDomain := ("_dmarc." ++ domain)%string in
  '(dmarcTxtRecords, err) <- lookupTXT dmarcDomain ;;
  ret (dmarcStage res dmarcTxtRecords err).

(** *** The worker pipeline of [main] (lines 139-196)

    The goroutines of [main] as a transition system: the dispatcher, the
    workers, the collector and [main] itself waiting on the wait group.
    [jobs] and [results] are unbuffered channels, so a send and its receive
    are one step.  A call of [checkDomain] is taken as one step on the
    shared world; what is stated of a run below either does not look at the
    answers of the network or supposes them independent of the world. *)

(** Where a worker goroutine stands in [for d := range jobs { ... }]. *)
Inductive Worker : Type :=
| Idle                     (* at [range jobs], waiting for a domain *)
| Pacing (d : string)      (* at [<-tick] *)
| Checking (d : string)    (* before [checkDomain(d, smtpCheck)] *)
| Sending (r : Result)     (* at [results <- r] *)
| Gone.                    (* left the loop: [wg.Done()] *)

Record Pool : Type := mkPool {
  queue : list string;       (* what the dispatcher has still to send *)
  jobsClosed : bool;         (* [close(jobs)] *)
  workers : list Worker;
  collected : list Result;   (* the collector's slice *)
  resultsClosed : bool;      (* [wg.Wait(); close(results)] *)
  world : World;
  log : list Event
}.

Inductive Action : Type :=
| Dispatch (i : nat)   (* [jobs <- d] meets the [range jobs] of worker [i] *)
| CloseJobs            (* [close(jobs)] after the last domain *)
| Leave (i : nat)      (* worker [i] finds [jobs] closed *)
| Tick (i : nat)       (* worker [i] receives from [tick] *)
| Verify (i : nat)     (* worker [i] runs [checkDomain] *)
| Collect (i : nat)    (* [results <- r] of worker [i] meets the collector *)
| CloseResults.        (* [wg.Wait()] returns; [close(results)] *)

Fixpoint setWorker (i : nat) (x : Worker) (ws : list Worker) : list Worker :=
  match ws, i with
  | [], _ => []
  | _ :: ws', O => x :: ws'
  | y :: ws', S i' => y :: setWorker i' x ws'
  end.

Definition isGone (x : Worker) : bool :=
  match x with Gone => true | _ => false end.

Definition withWorkers (ws : list Worker) (p : Pool) : Pool :=
  mkPool (queue p) (jobsClosed p) ws (collected p) (resultsClosed p)
         (world p) (log p).

(** One step of the pipeline; [None] when the step cannot be taken.
    [paced] is [tick != nil]. *)
Definition fire (paced smtpCheck : bool) (a : Action) (p : Pool)
  : option Pool :=
  match a with
  | Dispatch i =>
      match queue p, nth_error (workers p) i with
      | d :: q, Some Idle =>
          let x := if paced then Pacing d else Checking d in
          Some (mkPool q (jobsClosed p) (setWorker i x (workers p))
                       (collected p) (resultsClosed p) (world p) (log p))
      | _, _ => None
      end
  | CloseJobs =>
      match queue p, jobsClosed p with
      | [], false =>
          Some (mkPool [] true (workers p) (collected p) (resultsClosed p)
                       (world p) (log p))
      | _, _ => None
      end
  | Leave i =>
      match nth_error (workers p) i, jobsClosed p with
      | Some Idle, true => Some (withWorkers (setWorker i Gone (workers p)) p)
      | _, _ => None
      end
  | Tick i =>
      match nth_error (workers p) i with
      | Some (Pacing d) =>
          Some (withWorkers (setWorker i (Checking d) (workers p)) p)
      | _ => None
      end
  | Verify i =>
      match nth_error (workers p) i with
      | Some (Checking d) =>
          let '(r, tr, w) := checkDomain d smtpCheck (world p) in
          Some (mkPool (queue p) (jobsClosed p)
                       (setWorker i (Sending r) (workers p))
                       (collected p) (resultsClosed p) w (log p ++ tr))
      | _ => None
      end
  | Collect i =>
      match nth_error (workers p) i, resultsClosed p with
      | Some (Sending r), false =>
          Some (mkPool (queue p) (jobsClosed p)
                       (setWorker i Idle (workers p))
                       (collected p ++ [r]) (resultsClosed p)
                       (world p) (log p))
      | _, _ => None
      end
  | CloseResults =>
      if forallb isGone (workers p) && negb (resultsClosed p)
      then Some (mkPool (queue p) (jobsClosed p) (workers p) (collected p)
                        true (world p) (log p))
      else None
  end.

(** A schedule is the order in which the steps happen. *)
Fixpoint exec (paced smtpCheck : bool) (sched : list Action) (p : Pool)
  : option Pool :=
  match sched with
  | [] => Some p
  | a :: sched' =>
      match fire paced smtpCheck a p with
      | Some p' => exec paced smtpCheck sched' p'
      | None => None
      end
  end.

(** The pipeline when [main] has started its goroutines: [concurrency]
    workers (the loop [for i := 0; i < concurrency; i++] starts none when
    [concurrency] is not positive), nothing sent yet.  [main] comes here
    only with at least one domain; with none it returns before. *)
Definition initPool (concurrency : Z) (domains : list string) (w : World)
  : Pool :=
  mkPool domains false (repeat Idle (Z.to_nat concurrency)) [] false w [].

(** [<-done] has returned: the collector saw [results] closed. *)
Definition finished (p : Pool) : bool := resultsClosed p.

End Verifier.

Arguments IO World A : clear implicits.
Arguments Pool World : clear implicits.

(** *** The sorter (line 196)

    [sort.Slice(collected, less)] sorts in place by [less]; the library's
    algorithm is not stable.  It is taken here as a sort by insertion under
    the same [less]: what is stated of its result does not depend on the
    order it leaves among records of equal domain. *)

(** [func(i, j int) bool { return collected[i].Domain < collected[j].Domain }]. *)
Definition less (a b : Result) : bool := String.ltb (Domain a) (Domain b).

Fixpoint insertBy (lt : Result -> Result -> bool) (x : Result)
  (l : list Result) : list Result :=
  match l with
  | [] => [x]
  | y :: l' => if lt x y then x :: l else y :: insertBy lt x l'
  end.

Definition sortSlice (lt : Result -> Result -> bool) (l : list Result)
  : list Result :=
  fold_right (insertBy lt) [] l.

(** What [main] hands to the encoder. *)
Definition emitted {World : Type} (p : Pool World) : list Result :=
  sortSlice less (collected p).

(** [a] does not come after [b] in the order of the domains. *)
Definition domainLe (a b : Result) : Prop :=
  String.ltb (Domain b) (Domain a) = false.

(** ** Notions the properties are stated with *)

(** [s] starts with [p]. *)
Definition StartsWith (p s : string) : Prop :=
  exists t, s = (p ++ t)%string.

(** [s] ends with [x]. *)
Definition EndsWith (x s : string) : Prop :=
  exists t, s = (t ++ x)%string.

(** A line has ['-'] as its fourth character. *)
Definition FourthDash (line : string) : Prop :=
  exists a b c rest, line = String a (String b (String c (String "-" rest))).

(** The next read on the connection fails. *)
Definition ReadFails (br : Conn) : Prop :=
  match br with
  | Some _ :: _ => False
  | _ => True
  end.

(** What the next read on the connection returns. *)
Definition nextRead (br : Conn) : option string :=
  match br with
  | r :: _ => r
  | [] => None
  end.

(** [h] is the host [host] without one trailing dot. *)
Definition StripDot (host h : string) : Prop :=
  host = (h ++ ".")%string \/ (host = h /\ ~ EndsWith "." host).

(** The address dialled for a probe target. *)
Definition port25 (h : string) : string := JoinHostPort h "25".

(** A dial attempt of a trace failed. *)
Definition dialFailed (d : string * option error) : Prop :=
  snd d <> None.

(** Two records that differ at most in [LatencyMs]. *)
Definition sameButLatency (r r' : Result) : Prop :=
  set_LatencyMs 0 r = set_LatencyMs 0 r'.

Section PipelineNotions.

Context {World : Type} {net : Network World}.

(** The answers of resolver and dialer do not depend on what happened
    before (the clock is free). *)
Definition Stateless : Prop :=
  forall w w' : World,
    (forall name, fst (LookupMX name w) = fst (LookupMX name w'))
    /\ (forall name, fst (LookupTXT name w) = fst (LookupTXT name w'))
    /\ (forall nt addr, fst (DialContext nt addr w)
                        = fst (DialContext nt addr w')).

(** [r] is what [checkDomain] returns for its domain in some world. *)
Definition IsOutcome (smtpCheck : bool) (r : Result) : Prop :=
  exists w : World, r = outcome (checkDomain (Domain r) smtpCheck) w.

(** The domain a worker holds. *)
Definition holds (x : Worker) : list string :=
  match x with
  | Pacing d | Checking d => [d]
  | Sending r => [Domain r]
  | Idle | Gone => []
  end.

Definition inflight (ws : list Worker) : list string := flat_map holds ws.

Definition carriesOutcome (smtpCheck : bool) (x : Worker) : Prop :=
  match x with
  | Sending r => IsOutcome smtpCheck r
  | _ => True
  end.

(** What holds of every pool that a run from [initPool] reaches. *)
Record Inv (smtpCheck : bool) (n : nat) (domains : list string)
  (p : Pool World) : Prop := mkInv {
  inv_perm :
    Permutation domains
      (map Domain (collected p) ++ inflight (workers p) ++ queue p);
  inv_jobs : jobsClosed p = true -> queue p = [];
  inv_gone : In Gone (workers p) -> jobsClosed p = true;
  inv_results : resultsClosed p = true -> forallb isGone (workers p) = true;
  inv_workers : length (workers p) = n;
  inv_collected : Forall (IsOutcome smtpCheck) (collected p);
  inv_sending : Forall (carriesOutcome smtpCheck) (workers p)
}.

(** The domains that are past [<-tick]: under check, on their way to the
    collector, or collected. *)
Definition pastTick (x : Worker) : nat :=
  match x with
  | Checking _ | Sending _ => 1
  | _ => 0
  end.

Definition pastLimiter (p : Pool World) : nat :=
  length (collected p) + list_sum (map pastTick (workers p)).

Definition isPacing (x : Worker) : bool :=
  match x with Pacing _ => true | _ => false end.

(** A bound on the steps a pool can still take. *)
Definition weight (x : Worker) : nat :=
  match x with
  | Idle => 1
  | Pacing _ => 4
  | Checking _ => 3
  | Sending _ => 2
  | Gone => 0
  end.

Definition budget (p : Pool World) : nat :=
  5 * length (queue p) + (if jobsClosed p then 0 else 1)
  + list_sum (map weight (workers p))
  + (if resultsClosed p then 0 else 1).

End PipelineNotions.

(** *** The limiter (lines 143-148)

    [main] makes a ticker only under [rate > 0]; the workers receive from
    [tick] only when it is not nil, which is the [paced] of [fire].  When
    and how often the ticker fires is the matter of the Go runtime and
    stays outside this development. *)

(** [time.Second / time.Duration(rate)], in nanoseconds: the period handed
    to [time.NewTicker] (which panics on a period that is not positive). *)
Definition tickInterval (rate : Z) : Z := Z.quot Second rate.

(** [tick != nil]. *)
Definition limiterOn (rate : Z) : bool := (0 <? rate)%Z.

Definition isTick (a : Action) : bool :=
  match a with Tick _ => true | _ => false end.

(** The receptions from [tick] in a schedule. *)
Definition ticksOf (sched : list Action) : nat :=
  length (filter isTick sched).

(** A run on the example network: two workers, three domains of which one
    is given twice, the limiter on, no SMTP check. *)
Module DemoRun.

(** [checkDomain] on the example network. *)
Definition check : string -> bool -> IO Z Result :=
  checkDomain (net := Demo.net).

Definition domains : list string := ["nope.org"; "example.com"; "nope.org"].

Definition start : Pool Z := initPool 2 domains 0%Z.

Definition sched : list Action :=
  [Dispatch 0; Dispatch 1; Tick 0; Tick 1; Verify 0; Verify 1; Collect 0;
   Dispatch 0; Collect 1; Tick 0; Verify 0; CloseJobs; Collect 0; Leave 1;
   Leave 0; CloseResults].

Definition final : Pool Z :=
  Eval vm_compute in
    match exec (net := Demo.net) true false sched start with
    | Some p => p
    | None => start
    end.

End DemoRun.

(** * Properties *)

(** ** Go's string helpers against their meaning *)

Module GoStringsFacts.

Lemma substring_0_0 (s : string) : substring 0 0 s = EmptyString.
Proof. destruct s; reflexivity. Qed.

Lemma HasPrefix_nil (s : string) : HasPrefix s "" = true.
Proof. unfold HasPrefix. simpl. now rewrite substring_0_0. Qed.

Lemma HasPrefix_cons (a b : ascii) (s p : string) :
  HasPrefix (String a s) (String b p) = Ascii.eqb a b && HasPrefix s p.
Proof.
  unfold HasPrefix. simpl.
  destruct (String.length p <=? String.length s)%nat; simpl.
  - reflexivity.
  - now rewrite andb_false_r.
Qed.

(** [HasPrefix s p] holds exactly when [s] starts with [p]. *)
Lemma HasPrefix_spec (s p : string) :
  HasPrefix s p = true <-> exists t, s = (p ++ t)%string.
Proof.
  revert s. induction p as [|b p IH]; intros s.
  - rewrite HasPrefix_nil. split; [intros _; now exists s | reflexivity].
  - destruct s as [|a s].
    + split; [discriminate | intros [t Ht]; discriminate].
    + rewrite HasPrefix_cons, andb_true_iff, Ascii.eqb_eq, IH.
      split.
      * intros [-> [t ->]]. now exists t.
      * intros [t Ht]. simpl in Ht. injection Ht as -> ->. split; eauto.
Qed.

Lemma length_append (s t : string) :
  String.length (s ++ t) = String.length s + String.length t.
Proof. induction s; simpl; congruence. Qed.

Lemma substring_prefix (s t : string) :
  substring 0 (String.length s) (s ++ t) = s.
Proof. induction s; simpl; [apply substring_0_0 | congruence]. Qed.

Lemma substring_suffix (s t : string) :
  substring (String.length s) (String.length t) (s ++ t) = t.
Proof.
  induction s; simpl; [|assumption].
  induction t; simpl; congruence.
Qed.

Lemma substring_split (n : nat) (s : string) :
  n <= String.length s ->
  s = (substring 0 n s ++ substring n (String.length s - n) s)%string.
Proof.
  revert n. induction s as [|a s IH]; intros [|n] H; simpl in *;
    try lia; try reflexivity.
  - f_equal. clear. induction s; simpl; congruence.
  - f_equal. apply IH. lia.
Qed.

(** [HasSuffix s x] holds exactly when [s] ends with [x]. *)
Lemma HasSuffix_spec (s x : string) :
  HasSuffix s x = true <-> exists t, s = (t ++ x)%string.
Proof.
  unfold HasSuffix. rewrite andb_true_iff, Nat.leb_le, String.eqb_eq. split.
  - intros [Hlen Hsub].
    exists (substring 0 (String.length s - String.length x) s).
    pose proof (substring_split (String.length s - String.length x) s) as E.
    replace (String.length s - (String.length s - String.length x))
      with (String.length x) in E by lia.
    rewrite Hsub in E. apply E. lia.
  - intros [t ->]. rewrite length_append. split; [lia|].
    replace (String.length t + String.length x - String.length x)
      with (String.length t) by lia.
    apply substring_suffix.
Qed.

(** [TrimSuffix] takes one copy of the suffix off a string that ends with
    it, and leaves any other string as it is. *)
Lemma TrimSuffix_spec (s x : string) :
  (forall t, s = (t ++ x)%string -> TrimSuffix s x = t)
  /\ ((forall t, s <> (t ++ x)%string) -> TrimSuffix s x = s).
Proof.
  unfold TrimSuffix. split.
  - intros t ->.
    assert (H : HasSuffix (t ++ x) x = true) by (apply HasSuffix_spec; eauto).
    rewrite H, length_append.
    replace (String.length t + String.length x - String.length x)
      with (String.length t) by lia.
    apply substring_prefix.
  - intros H. destruct (HasSuffix s x) eqn:E; [|reflexivity].
    apply HasSuffix_spec in E. destruct E as [t Ht]. now destruct (H t).
Qed.

End GoStringsFacts.
Import GoStringsFacts.

(** ** The verifier *)

Section VerifierFacts.

Context {World : Type} {net : Network World}.

Implicit Types (w : World) (res r : Result) (tr : list Event).

Lemma outcome_bind {A B} (c : IO World A) (k : A -> IO World B) w :
  outcome (bind c k) w = outcome (k (outcome c w)) (after c w).
Proof.
  unfold outcome, after, bind. destruct (c w) as [[a t1] w1]. simpl.
  now destruct (k a w1) as [[b t2] w2].
Qed.

Lemma events_bind {A B} (c : IO World A) (k : A -> IO World B) w :
  events (bind c k) w = events c w ++ events (k (outcome c w)) (after c w).
Proof.
  unfold events, outcome, after, bind. destruct (c w) as [[a t1] w1]. simpl.
  now destruct (k a w1) as [[b t2] w2].
Qed.

Lemma after_bind {A B} (c : IO World A) (k : A -> IO World B) w :
  after (bind c k) w = after (k (outcome c w)) (after c w).
Proof.
  unfold outcome, after, bind. destruct (c w) as [[a t1] w1]. simpl.
  now destruct (k a w1) as [[b t2] w2].
Qed.

Lemma dialsOf_app tr1 tr2 : dialsOf (tr1 ++ tr2) = dialsOf tr1 ++ dialsOf tr2.
Proof.
  induction tr1 as [|e tr1 IH]; simpl; [reflexivity|].
  destruct e; simpl; now rewrite ?IH.
Qed.

(** *** The MX block *)

Lemma mx_loop (mxRecords : list MX) res :
  fold_left
    (fun res mx => set_MXHosts (MXHosts res ++ [TrimSuffix (Host mx) "."]) res)
    mxRecords res
  = set_MXHosts
      (MXHosts res ++ map (fun mx => TrimSuffix (Host mx) ".") mxRecords) res.
Proof.
  revert res. induction mxRecords as [|mx l IH]; intros res; simpl.
  - rewrite app_nil_r. now destruct res.
  - rewrite IH. unfold set_MXHosts. simpl. now rewrite <- app_assoc.
Qed.

Lemma mxStage_eq res (mxRecords : list MX) (err : option error) :
  mxStage res mxRecords err =
  match err, mxRecords with
  | None, _ :: _ =>
      set_MXHosts
        (MXHosts res ++ map (fun mx => TrimSuffix (Host mx) ".") mxRecords)
        (set_HasMX true res)
  | _, _ => res
  end.
Proof.
  unfold mxStage. destruct err; [reflexivity|].
  destruct mxRecords; [reflexivity|]. now rewrite mx_loop.
Qed.

Lemma StripDot_TrimSuffix (host : string) : StripDot host (TrimSuffix host ".").
Proof.
  destruct (HasSuffix host ".") eqn:E.
  - apply HasSuffix_spec in E. destruct E as [t ->]. left.
    now rewrite (proj1 (TrimSuffix_spec _ ".") t eq_refl).
  - right. unfold TrimSuffix. rewrite E. split; [reflexivity|].
    intros H. apply HasSuffix_spec in H. congruence.
Qed.

(** *** The scans of the TXT records *)

Lemma scanSPF_eq (l : list string) res :
  scanSPF l res =
  match find (fun x => HasPrefix x "v=spf1") l with
  | Some record => set_SPF record (set_HasSPF true res)
  | None => res
  end.
Proof.
  induction l as [|x l IH]; simpl; [reflexivity|].
  now destruct (HasPrefix x "v=spf1").
Qed.

Lemma scanDMARC_eq (l : list string) res :
  scanDMARC l res =
  match find (fun x => HasPrefix x "v=DMARC1") l with
  | Some record => set_DMARC record (set_HasDMARC true res)
  | None => res
  end.
Proof.
  induction l as [|x l IH]; simpl; [reflexivity|].
  now destruct (HasPrefix x "v=DMARC1").
Qed.

(** The first match of a scan: nothing before it matches, and what comes
    after it plays no part. *)
Lemma find_first_match (p : string) (pre post : list string) (x : string) :
  Forall (fun y => ~ StartsWith p y) pre -> StartsWith p x ->
  find (fun y => HasPrefix y p) (pre ++ x :: post) = Some x.
Proof.
  intros Hpre Hx. induction Hpre as [|y pre Hy _ IH]; simpl.
  - apply HasPrefix_spec in Hx. now rewrite Hx.
  - destruct (HasPrefix y p) eqn:E; [|assumption].
    apply HasPrefix_spec in E. now destruct Hy.
Qed.

Lemma find_no_match (p : string) (l : list string) :
  Forall (fun y => ~ StartsWith p y) l ->
  find (fun y => HasPrefix y p) l = None.
Proof.
  induction 1 as [|y l Hy _ IH]; simpl; [reflexivity|].
  destruct (HasPrefix y p) eqn:E; [|assumption].
  apply HasPrefix_spec in E. now destruct Hy.
Qed.

(** *** [checkDomain], block by block *)

Lemma checkDomain_split (domain : string) (smtpCheck : bool) w :
  checkDomain domain smtpCheck w =
  bind (dnsStages domain)
       (fun res => if smtpCheck then smtpStage domain res else ret res) w.
Proof.
  unfold checkDomain, dnsStages, bind, lookupMX, lookupTXT, ret.
  destruct (LookupMX domain w) as [[mx e1] w1].
  destruct (LookupTXT domain w1) as [[txt e2] w2].
  destruct (LookupTXT ("_dmarc." ++ domain) w2) as [[dm e3] w3].
  simpl.
  destruct smtpCheck; [|reflexivity].
  now destruct (smtpStage domain _ w3) as [[r tr] w4].
Qed.

Lemma dnsStages_outcome (domain : string) w :
  outcome (dnsStages domain) w =
  let m := LookupMX domain w in
  let t := LookupTXT domain (snd m) in
  let d := LookupTXT ("_dmarc." ++ domain) (snd t) in
  dmarcStage
    (spfStage (mxStage (newResult domain) (fst (fst m)) (snd (fst m)))
              (fst (fst t)) (snd (fst t)))
    (fst (fst d)) (snd (fst d)).
Proof.
  unfold outcome, dnsStages, bind, lookupMX, lookupTXT, ret. cbv zeta.
  destruct (LookupMX domain w) as [[mx e1] w1]. cbn [fst snd].
  destruct (LookupTXT domain w1) as [[txt e2] w2]. cbn [fst snd].
  now destruct (LookupTXT ("_dmarc." ++ domain) w2) as [[dm e3] w3].
Qed.

Lemma dnsStages_events (domain : string) w :
  events (dnsStages domain) w =
  [EvLookupMX domain; EvLookupTXT domain;
   EvLookupTXT ("_dmarc." ++ domain)].
Proof.
  unfold events, dnsStages, bind, lookupMX, lookupTXT, ret.
  destruct (LookupMX domain w) as [[mx e1] w1].
  destruct (LookupTXT domain w1) as [[txt e2] w2].
  now destruct (LookupTXT ("_dmarc." ++ domain) w2) as [[dm e3] w3].
Qed.

(** The fields that the three lookups leave at their zero value, and the
    domain. *)
Lemma dnsStages_rest (domain : string) w :
  let res := outcome (dnsStages domain) w in
  Domain res = domain /\ SMTPReach res = false /\ LatencyMs res = 0%Z
  /\ Error res = "".
Proof.
  rewrite dnsStages_outcome. cbv zeta.
  destruct (LookupMX domain w) as [[mx e1] w1]. cbn [fst snd].
  destruct (LookupTXT domain w1) as [[txt e2] w2]. cbn [fst snd].
  destruct (LookupTXT ("_dmarc." ++ domain) w2) as [[dm e3] w3]. cbn [fst snd].
  unfold dmarcStage, spfStage. rewrite mxStage_eq.
  destruct e3; [|rewrite scanDMARC_eq;
                 destruct (find (fun x => HasPrefix x "v=DMARC1") dm)];
  (destruct e2; [|rewrite scanSPF_eq;
                  destruct (find (fun x => HasPrefix x "v=spf1") txt)]);
  destruct e1, mx; simpl; auto.
Qed.

(** *** The exchange on a connection *)

Lemma endsResponse_spec (line : string) :
  endsResponse line = false <-> FourthDash line.
Proof.
  unfold endsResponse, FourthDash. split.
  - destruct line as [|a [|b [|c [|d rest]]]]; try discriminate.
    simpl. intros H. apply negb_false_iff in H.
    apply Ascii.eqb_eq in H. subst d. now exists a, b, c, rest.
  - intros (a & b & c & rest & ->). reflexivity.
Qed.

Lemma readResponse_stops (conts : list string) (l : string) (rest : Conn) w :
  Forall FourthDash conts -> ~ FourthDash l ->
  readResponse (map Some conts ++ Some l :: rest) w
  = (rest, map (fun x => EvRead (Some x)) (conts ++ [l]), w).
Proof.
  intros Hc Hl. induction Hc as [|x conts Hx _ IH]; simpl.
  - unfold bind, emit, ret. simpl.
    destruct (endsResponse l) eqn:E; [reflexivity|].
    apply endsResponse_spec in E. contradiction.
  - apply endsResponse_spec in Hx. unfold bind, emit. simpl.
    rewrite Hx, IH. reflexivity.
Qed.

Lemma readResponse_runs_out (conts : list string) (rest : Conn) w :
  Forall FourthDash conts -> ReadFails rest ->
  readResponse (map Some conts ++ rest) w
  = (tl rest, map (fun x => EvRead (Some x)) conts ++ [EvRead None], w).
Proof.
  intros Hc Hr. induction Hc as [|x conts Hx _ IH]; simpl.
  - destruct rest as [|[l|] rest]; [reflexivity | destruct Hr | reflexivity].
  - apply endsResponse_spec in Hx. unfold bind, emit. simpl.
    rewrite Hx, IH. reflexivity.
Qed.

(** Every connection is of one of the two shapes. *)
Lemma response_shape (br : Conn) :
  exists conts rest,
    br = map Some conts ++ rest /\ Forall FourthDash conts
    /\ (ReadFails rest
        \/ exists l rest', rest = Some l :: rest' /\ ~ FourthDash l).
Proof.
  induction br as [|[x|] br IH].
  - exists [], []. repeat split; [constructor | now left].
  - destruct (endsResponse x) eqn:E.
    + exists [], (Some x :: br). repeat split; [constructor|].
      right. exists x, br. split; [reflexivity|].
      intros H. apply endsResponse_spec in H. congruence.
    + apply endsResponse_spec in E.
      destruct IH as (c & r & -> & Hc & Hr).
      exists (x :: c), r. repeat split; [now constructor | exact Hr].
  - exists [], (None :: br). repeat split; [constructor | now left].
Qed.

Lemma readResponse_only_reads (br : Conn) w :
  dialsOf (events (readResponse br) w) = [].
Proof.
  destruct (response_shape br) as (c & r & -> & Hc & [Hr|(l & r' & -> & Hl)]).
  - unfold events. rewrite readResponse_runs_out by assumption. simpl.
    rewrite dialsOf_app. simpl. rewrite app_nil_r.
    clear. induction c; simpl; auto.
  - unfold events. rewrite readResponse_stops by assumption. simpl.
    generalize (c ++ [l]). intros l0. induction l0; simpl; auto.
Qed.

Lemma smtpDialog_events (conn : Conn) w :
  events (smtpDialog conn) w =
  [EvNow (fst (Now w)); EvRead (nextRead conn);
   EvWrite ("EHLO example.com" ++ CRLF)]
  ++ events (readResponse (tl conn)) (snd (Now w))
  ++ [EvWrite ("QUIT" ++ CRLF); EvClose].
Proof.
  unfold events at 1. unfold smtpDialog, bind, now, emit, ret.
  destruct (Now w) as [t w1]. simpl.
  destruct conn as [|greet br]; simpl;
    unfold bind, emit, ret; simpl; unfold events; [reflexivity|].
  now destruct (readResponse br w1) as [[x tr] w2].
Qed.

Lemma smtpDialog_no_dial (conn : Conn) w :
  dialsOf (events (smtpDialog conn) w) = [].
Proof.
  rewrite smtpDialog_events. simpl. rewrite dialsOf_app.
  now rewrite readResponse_only_reads.
Qed.

(** *** The loop over the probe targets *)

Lemma last_cons_default {A} (a d : A) (l : list A) :
  last (a :: l) d = last l a.
Proof.
  revert a d. induction l as [|b l IH]; intros a d; [reflexivity|].
  change (last (a :: b :: l) d) with (last (b :: l) d).
  now rewrite (IH b d), (IH b a).
Qed.

(** One turn of the loop. *)
Lemma probeTargets_cons (h : string) (rest : list string) res
  (lastErr : option error) w :
  probeTargets (h :: rest) res lastErr w =
  let (start, w1) := Now w in
  let (r, w2) := DialContext "tcp" (port25 h) w1 in
  match r with
  | inr err =>
      let '(x, tr, w3) := probeTargets rest res (Some err) w2 in
      (x, EvNow start :: EvDial (port25 h) (Some err) :: tr, w3)
  | inl conn =>
      let '(_, dlg, w3) := smtpDialog conn w2 in
      let (t, w4) := Now w3 in
      ((set_LatencyMs (Milliseconds (Sub t start)) (set_SMTPReach true res),
        None),
       EvNow start :: EvDial (port25 h) None :: dlg ++ [EvNow t], w4)
  end.
Proof.
  unfold port25. simpl. unfold bind at 1, now.
  destruct (Now w) as [start w1]. unfold bind at 1, dial.
  destruct (DialContext "tcp" (JoinHostPort h "25") w1) as [[conn|err] w2].
  - unfold bind, ret. destruct (smtpDialog conn w2) as [[u dlg] w3].
    now destruct (Now w3) as [t w4].
  - now destruct (probeTargets rest res (Some err) w2) as [[x tr] w3].
Qed.

(** A run of the loop either fails on every target, or reaches one after
    failing on all the targets before it and stops there. *)
Lemma probeTargets_run (targets : list string) res (lastErr : option error) w :
  (exists errs,
      length errs = length targets
      /\ dialsOf (events (probeTargets targets res lastErr) w)
         = combine (map port25 targets) (map Some errs)
      /\ outcome (probeTargets targets res lastErr) w
         = (res, last (map Some errs) lastErr))
  \/ (exists pre h post errs start t before dlg,
      targets = pre ++ h :: post
      /\ length errs = length pre
      /\ events (probeTargets targets res lastErr) w
         = before ++ [EvNow start; EvDial (port25 h) None] ++ dlg ++ [EvNow t]
      /\ dialsOf before = combine (map port25 pre) (map Some errs)
      /\ dialsOf dlg = []
      /\ outcome (probeTargets targets res lastErr) w
         = (set_LatencyMs (Milliseconds (Sub t start))
                          (set_SMTPReach true res), None)).
Proof.
  revert lastErr w. induction targets as [|h rest IH]; intros lastErr w.
  - left. exists []. repeat split.
  - unfold outcome, events. rewrite probeTargets_cons.
    destruct (Now w) as [start w1].
    destruct (DialContext "tcp" (port25 h) w1) as [[conn|err] w2].
    + right. pose proof (smtpDialog_no_dial conn w2) as Hd.
      unfold events in Hd.
      destruct (smtpDialog conn w2) as [[u dlg] w3]. simpl in Hd.
      destruct (Now w3) as [t w4]. simpl.
      exists [], h, rest, [], start, t, [], dlg. repeat split; auto.
    + specialize (IH (Some err) w2). unfold outcome, events in IH.
      destruct (probeTargets rest res (Some err) w2) as [[x tr] w3].
      simpl in *.
      destruct IH as [(errs & Hlen & Hd & Ho)
                     |(pre & h' & post & errs & st & t & before & dlg
                       & -> & Hlen & -> & Hb & Hd & Ho)].
      * left. exists (err :: errs). simpl. repeat split.
        -- now rewrite Hlen.
        -- now rewrite Hd.
        -- rewrite Ho. f_equal.
           change (last (map Some errs) (Some err)
                   = last (Some err :: map Some errs) lastErr).
           now rewrite last_cons_default.
      * right.
        exists (h :: pre), h', post, (err :: errs), st, t,
               (EvNow start :: EvDial (port25 h) (Some err) :: before), dlg.
        simpl. repeat split; auto. now rewrite Hb.
Qed.

(** *** The SMTP block and the whole check *)

Lemma probeTargetsOf_not_nil (domain : string) res :
  probeTargetsOf domain res <> [].
Proof. unfold probeTargetsOf. destruct (MXHosts res); discriminate. Qed.

Lemma last_map_Some {A} (l : list A) (d : option A) :
  l <> [] -> exists e, last (map Some l) d = Some e.
Proof.
  induction l as [|a l IH]; [congruence|]. intros _.
  destruct l as [|b l]; [now exists a|].
  destruct IH as [e He]; [discriminate|]. exists e. exact He.
Qed.

Lemma checkDomain_no_smtp (domain : string) w :
  checkDomain domain false w
  = (outcome (dnsStages domain) w, events (dnsStages domain) w,
     after (dnsStages domain) w).
Proof.
  rewrite checkDomain_split. unfold bind, ret, outcome, events, after.
  destruct (dnsStages domain w) as [[r tr] w']. simpl.
  now rewrite app_nil_r.
Qed.

(** With the probe: every target failed, or one was reached. *)
Lemma checkDomain_probe (domain : string) w :
  let r := outcome (checkDomain domain true) w in
  let tr := events (checkDomain domain true) w in
  let targets := probeTargetsOf domain r in
  (exists errs e,
      length errs = length targets
      /\ dialsOf tr = combine (map port25 targets) (map Some errs)
      /\ last (map Some errs) None = Some e
      /\ SMTPReach r = false /\ LatencyMs r = 0%Z /\ Error r = ErrorText e)
  \/ (exists pre h post errs start t before dlg,
      targets = pre ++ h :: post
      /\ length errs = length pre
      /\ tr = before ++ [EvNow start; EvDial (port25 h) None] ++ dlg
              ++ [EvNow t]
      /\ dialsOf before = combine (map port25 pre) (map Some errs)
      /\ dialsOf dlg = []
      /\ SMTPReach r = true /\ LatencyMs r = Milliseconds (Sub t start)
      /\ Error r = "").
Proof.
  cbv zeta. unfold outcome, events. rewrite checkDomain_split.
  pose proof (dnsStages_rest domain w) as (_ & Hs & Hl & He).
  pose proof (dnsStages_events domain w) as Hev.
  unfold outcome, events in *. unfold bind.
  destruct (dnsStages domain w) as [[r0 tr0] w0]. simpl in Hs, Hl, He, Hev.
  unfold smtpStage, bind.
  pose proof (probeTargets_run (probeTargetsOf domain r0) r0 None w0) as H.
  unfold outcome, events in H.
  destruct (probeTargets (probeTargetsOf domain r0) r0 None w0)
    as [[[r1 le] tr1] w1].
  simpl in H.
  destruct H as [(errs & Hlen & Hd & Ho)
                |(pre & h & post & errs & st & t & before & dlg
                  & Ht & Hlen & -> & Hb & Hd & Ho)].
  - left. injection Ho as -> ->.
    destruct (last_map_Some errs None) as [e Hlast].
    { intros ->. simpl in Hlen. symmetry in Hlen.
      apply length_zero_iff_nil in Hlen.
      now apply probeTargetsOf_not_nil in Hlen. }
    rewrite Hlast. simpl. rewrite app_nil_r.
    exists errs, e. unfold probeTargetsOf at 1 2. simpl.
    fold (probeTargetsOf domain r0).
    repeat split; auto.
    subst tr0. rewrite dialsOf_app. exact Hd.
  - right. injection Ho as -> ->. simpl. rewrite app_nil_r.
    exists pre, h, post, errs, st, t, (tr0 ++ before), dlg.
    unfold probeTargetsOf at 1. simpl. fold (probeTargetsOf domain r0).
    repeat split; auto.
    + now rewrite <- app_assoc.
    + subst tr0. rewrite dialsOf_app. exact Hb.
Qed.

Lemma ErrorText_not_empty (e : error) : ErrorText e <> "".
Proof.
  intros H. apply (f_equal String.length) in H. revert H.
  destruct e as [err name server|op nt source addr err]; simpl.
  - destruct (server =? ""); rewrite ?length_append; simpl; lia.
  - rewrite length_append. simpl. lia.
Qed.

Lemma combine_all_failed (l : list string) (errs : list error) :
  Forall dialFailed (combine l (map Some errs)).
Proof.
  revert l. induction errs as [|e errs IH]; intros [|a l]; simpl;
    constructor; [discriminate | apply IH].
Qed.

Lemma combine_fst {A B} (l : list A) (l' : list B) :
  length l' = length l -> map fst (combine l l') = l.
Proof.
  revert l'. induction l as [|a l IH]; intros [|b l'] H; simpl in *;
    try discriminate; [reflexivity|]. f_equal. apply IH. lia.
Qed.

Lemma combine_last_snd {A B} (l : list A) (l' : list B) (d : A) (d' : B) :
  length l' = length l -> snd (last (combine l l') (d, d')) = last l' d'.
Proof.
  revert l'. induction l as [|a l IH]; intros [|b l'] H; simpl in *;
    try discriminate; [reflexivity|].
  destruct l as [|a' l], l' as [|b' l']; simpl in *; try discriminate;
    [reflexivity|].
  apply (IH (b' :: l')). simpl. lia.
Qed.

(** The SMTP block leaves what the lookups have found as it is. *)
Lemma checkDomain_dns_fields (domain : string) (smtpCheck : bool) w :
  let r := outcome (checkDomain domain smtpCheck) w in
  let r0 := outcome (dnsStages domain) w in
  Domain r = Domain r0 /\ HasMX r = HasMX r0 /\ MXHosts r = MXHosts r0
  /\ HasSPF r = HasSPF r0 /\ SPF r = SPF r0
  /\ HasDMARC r = HasDMARC r0 /\ DMARC r = DMARC r0.
Proof.
  cbv zeta. destruct smtpCheck.
  - unfold outcome. rewrite checkDomain_split. unfold bind.
    destruct (dnsStages domain w) as [[r0 tr0] w0]. simpl.
    unfold smtpStage, bind.
    pose proof (probeTargets_run (probeTargetsOf domain r0) r0 None w0) as H.
    unfold outcome in H.
    destruct (probeTargets (probeTargetsOf domain r0) r0 None w0)
      as [[[r1 le] tr1] w1].
    simpl in H.
    destruct H as [(errs & _ & _ & Ho)
                  |(pre & h & post & errs & st & t & before & dlg
                    & _ & _ & _ & _ & _ & Ho)];
      injection Ho as -> ->.
    + destruct (last (map Some errs) None); simpl; repeat split.
    + simpl. repeat split.
  - unfold outcome at 1 2 3 4 5 6 7. rewrite checkDomain_no_smtp. simpl.
    repeat split.
Qed.

(** What the lookups leave in the record. *)
Lemma dnsStages_fields (domain : string) w :
  let m := fst (LookupMX domain w) in
  let w1 := snd (LookupMX domain w) in
  let t := fst (LookupTXT domain w1) in
  let w2 := snd (LookupTXT domain w1) in
  let d := fst (LookupTXT ("_dmarc." ++ domain) w2) in
  let r0 := outcome (dnsStages domain) w in
  HasMX r0 = HasMX (mxStage (newResult domain) (fst m) (snd m))
  /\ MXHosts r0 = MXHosts (mxStage (newResult domain) (fst m) (snd m))
  /\ HasSPF r0 = HasSPF (spfStage (newResult domain) (fst t) (snd t))
  /\ SPF r0 = SPF (spfStage (newResult domain) (fst t) (snd t))
  /\ HasDMARC r0 = HasDMARC (dmarcStage (newResult domain) (fst d) (snd d))
  /\ DMARC r0 = DMARC (dmarcStage (newResult domain) (fst d) (snd d)).
Proof.
  cbv zeta. rewrite dnsStages_outcome. cbv zeta.
  destruct (LookupMX domain w) as [[mx e1] w1]. cbn [fst snd].
  destruct (LookupTXT domain w1) as [[txt e2] w2]. cbn [fst snd].
  destruct (LookupTXT ("_dmarc." ++ domain) w2) as [[dm e3] w3]. cbn [fst snd].
  unfold dmarcStage, spfStage. rewrite !mxStage_eq.
  destruct e3; [|rewrite !scanDMARC_eq;
                 destruct (find (fun x => HasPrefix x "v=DMARC1") dm)];
  (destruct e2; [|rewrite !scanSPF_eq;
                  destruct (find (fun x => HasPrefix x "v=spf1") txt)]);
  destruct e1, mx; simpl; repeat split.
Qed.

(** *** The claims on [checkDomain] *)

Lemma no_smtp_fields (domain : string) w :
  let r := outcome (checkDomain domain false) w in
  SMTPReach r = false /\ Error r = ""
  /\ dialsOf (events (checkDomain domain false) w) = [].
Proof.
  cbv zeta. unfold outcome, events. rewrite checkDomain_no_smtp. simpl.
  pose proof (dnsStages_rest domain w) as (_ & Hs & _ & He).
  rewrite dnsStages_events. auto.
Qed.

(** C2.  For every domain and every world, [checkDomain] without the SMTP
    check returns a record with [SMTPReach = false] and an empty [Error],
    whatever the three lookups answer; no connection is even tried. *)
Theorem no_smtp_check_no_error (domain : string) w :
  let r := outcome (checkDomain domain false) w in
  SMTPReach r = false /\ Error r = ""
  /\ dialsOf (events (checkDomain domain false) w) = [].
Proof. apply no_smtp_fields. Qed.

(** C3.  The SPF fields of the outcome come from the TXT records of the
    domain, scanned in the order the resolver returned them: the first
    record that starts with ["v=spf1"] sets [HasSPF] and is stored whole in
    [SPF], whatever records follow it; with no such record, or when the
    lookup fails, [HasSPF] is false and [SPF] is empty. *)
Theorem spf_first_match_wins (domain : string) (smtpCheck : bool) w :
  let w1 := snd (LookupMX domain w) in
  let txtRecords := fst (fst (LookupTXT domain w1)) in
  let err := snd (fst (LookupTXT domain w1)) in
  let r := outcome (checkDomain domain smtpCheck) w in
  (err = None ->
   forall pre record post,
     txtRecords = pre ++ record :: post ->
     Forall (fun x => ~ StartsWith "v=spf1" x) pre ->
     StartsWith "v=spf1" record ->
     HasSPF r = true /\ SPF r = record)
  /\ (err = None ->
      Forall (fun x => ~ StartsWith "v=spf1" x) txtRecords ->
      HasSPF r = false /\ SPF r = "")
  /\ (err <> None -> HasSPF r = false /\ SPF r = "").
Proof.
  cbv zeta.
  pose proof (checkDomain_dns_fields domain smtpCheck w)
    as (_ & _ & _ & -> & -> & _).
  pose proof (dnsStages_fields domain w) as (_ & _ & -> & -> & _).
  destruct (fst (LookupTXT domain (snd (LookupMX domain w)))) as [txt e].
  simpl. repeat split.
  1,2: subst e; subst txt; simpl; rewrite scanSPF_eq;
       rewrite find_first_match by assumption; reflexivity.
  1,2: subst e; simpl; rewrite scanSPF_eq;
       rewrite find_no_match by assumption; reflexivity.
  1,2: destruct e; [reflexivity | congruence].
Qed.

(** C4.  The DMARC fields come from the TXT records of ["_dmarc." ++ domain],
    by the same scan with the prefix ["v=DMARC1"]: the first record that
    starts with it sets [HasDMARC] and is stored whole in [DMARC]; no such
    record, or a failed lookup, leaves them false and empty.  Nothing of the
    SPF block enters: the DMARC block gives the same two fields from any
    two records that agree on them. *)
Theorem dmarc_first_match_wins (domain : string) (smtpCheck : bool) w :
  let w1 := snd (LookupMX domain w) in
  let w2 := snd (LookupTXT domain w1) in
  let answer := fst (LookupTXT ("_dmarc." ++ domain) w2) in
  let dmarcTxtRecords := fst answer in
  let err := snd answer in
  let r := outcome (checkDomain domain smtpCheck) w in
  (err = None ->
   forall pre record post,
     dmarcTxtRecords = pre ++ record :: post ->
     Forall (fun x => ~ StartsWith "v=DMARC1" x) pre ->
     StartsWith "v=DMARC1" record ->
     HasDMARC r = true /\ DMARC r = record)
  /\ (err = None ->
      Forall (fun x => ~ StartsWith "v=DMARC1" x) dmarcTxtRecords ->
      HasDMARC r = false /\ DMARC r = "")
  /\ (err <> None -> HasDMARC r = false /\ DMARC r = "")
  /\ (forall res res' l e,
        HasDMARC res = HasDMARC res' -> DMARC res = DMARC res' ->
        HasDMARC (dmarcStage res l e) = HasDMARC (dmarcStage res' l e)
        /\ DMARC (dmarcStage res l e) = DMARC (dmarcStage res' l e)).
Proof.
  cbv zeta.
  pose proof (checkDomain_dns_fields domain smtpCheck w)
    as (_ & _ & _ & _ & _ & -> & ->).
  pose proof (dnsStages_fields domain w) as (_ & _ & _ & _ & -> & ->).
  destruct (fst (LookupTXT ("_dmarc." ++ domain)
                   (snd (LookupTXT domain (snd (LookupMX domain w))))))
    as [dm e].
  cbn [fst snd]. repeat split.
  1,2: subst e; subst dm; simpl; rewrite scanDMARC_eq;
       rewrite find_first_match by assumption; reflexivity.
  1,2: subst e; simpl; rewrite scanDMARC_eq;
       rewrite find_no_match by assumption; reflexivity.
  1,2: destruct e; [reflexivity | congruence].
  1,2: destruct e0; simpl; [assumption|]; rewrite !scanDMARC_eq;
       destruct (find (fun x => HasPrefix x "v=DMARC1") l); simpl; auto.
Qed.

(** C5.  When the MX lookup fails or returns no record, [HasMX] is false
    and [MXHosts] is empty; otherwise [HasMX] is true and [MXHosts] holds
    the hosts of the records in the resolver's order, each without one
    trailing dot.  In every outcome [MXHosts] is empty exactly when [HasMX]
    is false.  The MX block never writes [Error]: it leaves the field
    empty, and an [Error] that is set in the outcome is the text of an
    error of a connection attempt. *)
Theorem mx_hosts_of_lookup (domain : string) (smtpCheck : bool) w :
  let mxRecords := fst (fst (LookupMX domain w)) in
  let err := snd (fst (LookupMX domain w)) in
  let r := outcome (checkDomain domain smtpCheck) w in
  (err <> None \/ mxRecords = [] -> HasMX r = false /\ MXHosts r = [])
  /\ (err = None -> mxRecords <> [] ->
      HasMX r = true
      /\ MXHosts r = map (fun mx => TrimSuffix (Host mx) ".") mxRecords
      /\ Forall2 (fun mx h => StripDot (Host mx) h) mxRecords (MXHosts r))
  /\ (MXHosts r = [] <-> HasMX r = false)
  /\ Error (mxStage (newResult domain) mxRecords err) = ""
  /\ (Error r = ""
      \/ exists addr e,
           In (addr, Some e) (dialsOf (events (checkDomain domain smtpCheck) w))
           /\ Error r = ErrorText e).
Proof.
  cbv zeta.
  assert (Herr : Error (outcome (checkDomain domain smtpCheck) w) = ""
      \/ exists addr e,
           In (addr, Some e)
              (dialsOf (events (checkDomain domain smtpCheck) w))
           /\ Error (outcome (checkDomain domain smtpCheck) w) = ErrorText e).
  { destruct smtpCheck.
    - destruct (checkDomain_probe domain w)
        as [(errs & e & Hlen & Hd & Hlast & _ & _ & He)
           |(pre & h & post & errs & st & t & before & dlg & H)];
        [right | left; apply H].
      pose proof (probeTargetsOf_not_nil domain
                    (outcome (checkDomain domain true) w)) as Hne.
      set (targets := probeTargetsOf domain _) in *.
      exists (last (map port25 targets) ""), e. split; [|exact He].
      rewrite Hd.
      assert (Hc : combine (map port25 targets) (map Some errs) <> []).
      { destruct targets, errs; simpl in *; congruence. }
      pose proof (app_removelast_last ("", None) Hc) as Hsplit.
      rewrite Hsplit at 1. apply in_or_app. right. left.
      rewrite (surjective_pairing (last _ _)). f_equal.
      + rewrite <- (combine_fst (map port25 targets) (map Some errs)) at 2
          by (rewrite !length_map; exact Hlen).
        clear. generalize (combine (map port25 targets) (map Some errs)).
        intros l. induction l as [|x [|y l] IH]; auto.
      + rewrite combine_last_snd by (rewrite !length_map; exact Hlen).
        exact Hlast.
    - left. apply no_smtp_fields. }
  pose proof (checkDomain_dns_fields domain smtpCheck w)
    as (_ & -> & -> & _).
  pose proof (dnsStages_fields domain w) as (-> & -> & _).
  destruct (fst (LookupMX domain w)) as [mx e]. cbn [fst snd].
  rewrite !mxStage_eq. repeat split; try exact Herr.
  5: { subst e. destruct mx as [|m mx]; [congruence|].
       cbn [MXHosts set_MXHosts newResult set_HasMX app].
       clear. induction (m :: mx) as [|x l IH]; simpl; constructor;
         [apply StripDot_TrimSuffix | exact IH]. }
  all: destruct e as [e|], mx as [|m mx]; simpl; intros;
    try reflexivity; try congruence; intuition congruence.
Qed.

(** C10.  For every domain, with or without the SMTP check: an outcome with
    [SMTPReach = false] has [LatencyMs = 0]. *)
Theorem unreachable_has_zero_latency (domain : string) (smtpCheck : bool) w :
  let r := outcome (checkDomain domain smtpCheck) w in
  SMTPReach r = false -> LatencyMs r = 0%Z.
Proof.
  cbv zeta. destruct smtpCheck.
  - destruct (checkDomain_probe domain w)
      as [(errs & e & _ & _ & _ & _ & Hl & _)
         |(pre & h & post & errs & st & t & before & dlg
           & _ & _ & _ & _ & _ & Hs & _)].
    + intros _. exact Hl.
    + rewrite Hs. discriminate.
  - intros _. unfold outcome. rewrite checkDomain_no_smtp. simpl.
    apply dnsStages_rest.
Qed.

Lemma no_success_among_failures (l : list string) (errs : list error)
  (addr : string) :
  ~ In (addr, None) (combine l (map Some errs)).
Proof.
  intros H. pose proof (combine_all_failed l errs) as F.
  rewrite Forall_forall in F. now apply F in H.
Qed.

Lemma Forall_removelast {A} (P : A -> Prop) (l : list A) :
  Forall P l -> Forall P (removelast l).
Proof.
  induction 1 as [|x l Hx Hl IH]; simpl; [constructor|].
  destruct l; [constructor | now constructor].
Qed.

(** C6.  With the SMTP check, the probe targets are [MXHosts] when it is
    not empty and the domain alone otherwise.  The dials of a run go to
    the targets in their order, on port 25, each one only after all the
    dials before it have failed.  When a dial succeeds, it is to a target
    [h], every target before [h] was dialled and failed, nothing is dialled
    after it, and the outcome has [SMTPReach = true], no error, and as
    [LatencyMs] the time from the clock reading before that dial to the
    reading after the exchange. *)
Theorem first_reachable_target_wins (domain : string) w :
  let r := outcome (checkDomain domain true) w in
  let tr := events (checkDomain domain true) w in
  let targets :=
    match MXHosts r with [] => [domain] | _ :: _ => MXHosts r end in
  (exists tried rest,
      targets = tried ++ rest /\ tried <> []
      /\ map fst (dialsOf tr) = map (fun h => JoinHostPort h "25") tried
      /\ Forall dialFailed (removelast (dialsOf tr)))
  /\ forall addr, In (addr, None) (dialsOf tr) ->
     exists pre h post errs start t before dlg,
       targets = pre ++ h :: post
       /\ addr = JoinHostPort h "25"
       /\ length errs = length pre
       /\ tr = before ++ [EvNow start; EvDial addr None] ++ dlg ++ [EvNow t]
       /\ dialsOf before = combine (map port25 pre) (map Some errs)
       /\ dialsOf dlg = []
       /\ SMTPReach r = true
       /\ LatencyMs r = Milliseconds (Sub t start)
       /\ Error r = "".
Proof.
  cbv zeta.
  fold (probeTargetsOf domain (outcome (checkDomain domain true) w)).
  pose proof (probeTargetsOf_not_nil domain
                (outcome (checkDomain domain true) w)) as Hne.
  destruct (checkDomain_probe domain w)
    as [(errs & e & Hlen & Hd & _)
       |(pre & h & post & errs & st & t & before & dlg
         & Ht & Hlen & Htr & Hb & Hdlg & Hs & Hl & He)].
  - split.
    + exists (probeTargetsOf domain (outcome (checkDomain domain true) w)), [].
      rewrite app_nil_r, Hd. repeat split; [exact Hne | |].
      * apply (combine_fst (map port25 _)). now rewrite !length_map.
      * apply Forall_removelast, combine_all_failed.
    + intros addr Hin. rewrite Hd in Hin.
      now apply no_success_among_failures in Hin.
  - assert (Hdials : dialsOf (events (checkDomain domain true) w)
                     = combine (map port25 pre) (map Some errs)
                       ++ [(port25 h, None)]).
    { rewrite Htr, !dialsOf_app, Hb, Hdlg. reflexivity. }
    split.
    + exists (pre ++ [h]), post. rewrite Hdials. repeat split.
      * now rewrite <- app_assoc.
      * now destruct pre.
      * rewrite !map_app. f_equal.
        apply (combine_fst (map port25 pre)). now rewrite !length_map.
      * rewrite removelast_last. apply combine_all_failed.
    + intros addr Hin.
      assert (addr = port25 h) as ->.
      { rewrite Hdials in Hin. apply in_app_or in Hin.
        destruct Hin as [Hin|[Hin|[]]].
        - now apply no_success_among_failures in Hin.
        - congruence. }
      exists pre, h, post, errs, st, t, before, dlg.
      repeat split; assumption.
Qed.

(** C8.  After the EHLO command the probe reads lines until one does not
    have ['-'] as its fourth character, or until a read fails.  Of what the
    server sends after its greeting it reads the longest run of
    continuation lines and the line that ends the run, whatever that line
    is (no status code is looked at, and a line of fewer than four bytes
    ends the run too); a run that is followed by a failing read is read
    up to that read.  Nothing more is read. *)
Theorem ehlo_reading_stops_at_final_line (conn : Conn) w :
  let opening :=
    [EvNow (fst (Now w)); EvRead (nextRead conn);
     EvWrite ("EHLO example.com" ++ CRLF)] in
  let closing := [EvWrite ("QUIT" ++ CRLF); EvClose] in
  (forall conts l rest,
      tl conn = map Some conts ++ Some l :: rest ->
      Forall FourthDash conts -> ~ FourthDash l ->
      events (smtpDialog conn) w
      = opening ++ map (fun x => EvRead (Some x)) (conts ++ [l]) ++ closing)
  /\ (forall conts rest,
      tl conn = map Some conts ++ rest ->
      Forall FourthDash conts -> ReadFails rest ->
      events (smtpDialog conn) w
      = opening
        ++ (map (fun x => EvRead (Some x)) conts ++ [EvRead None])
        ++ closing)
  /\ (exists conts rest,
        tl conn = map Some conts ++ rest /\ Forall FourthDash conts
        /\ (ReadFails rest
            \/ exists l rest', rest = Some l :: rest' /\ ~ FourthDash l)).
Proof.
  cbv zeta. split; [|split].
  - intros conts l rest Htl Hc Hl. rewrite smtpDialog_events, Htl.
    unfold events at 1. now rewrite readResponse_stops.
  - intros conts rest Htl Hc Hr. rewrite smtpDialog_events, Htl.
    unfold events at 1. now rewrite readResponse_runs_out.
  - apply response_shape.
Qed.

(** [Error] is set exactly when the check was asked for and every
    connection attempt failed; it is then the text of the last error. *)
Lemma error_iff_all_failed (domain : string) (smtpCheck : bool) w :
  let r := outcome (checkDomain domain smtpCheck) w in
  let tr := events (checkDomain domain smtpCheck) w in
  let targets := match MXHosts r with [] => [domain] | _ :: _ => MXHosts r end in
  (Error r <> "" <-> smtpCheck = true /\ Forall dialFailed (dialsOf tr))
  /\ (smtpCheck = true -> Forall dialFailed (dialsOf tr) ->
      map fst (dialsOf tr) = map port25 targets
      /\ exists e, snd (last (dialsOf tr) ("", None)) = Some e
                   /\ Error r = ErrorText e /\ SMTPReach r = false)
  /\ (Error r <> "" -> smtpCheck = true /\ SMTPReach r = false).
Proof.
  cbv zeta. destruct smtpCheck.
  - fold (probeTargetsOf domain (outcome (checkDomain domain true) w)).
    destruct (checkDomain_probe domain w)
      as [(errs & e & Hlen & Hd & Hlast & Hs & _ & He)
         |(pre & h & post & errs & st & t & before & dlg
           & Ht & Hlen & Htr & Hb & Hdlg & Hs & Hl & He)].
    + rewrite Hd, He. split; [|split].
      * split; [intros _; split; [reflexivity | apply combine_all_failed]|].
        intros _. apply ErrorText_not_empty.
      * intros _ _. split.
        -- apply combine_fst. now rewrite !length_map.
        -- exists e. rewrite combine_last_snd by now rewrite !length_map.
           auto.
      * auto.
    + rewrite He, Htr. split; [|split].
      * split; [congruence|]. intros [_ F]. exfalso.
        rewrite !dialsOf_app in F. apply Forall_app in F. destruct F as [_ F].
        simpl in F. inversion F as [|x l Hx _]. now apply Hx.
      * intros _ F. exfalso.
        rewrite !dialsOf_app in F. apply Forall_app in F. destruct F as [_ F].
        simpl in F. inversion F as [|x l Hx _]. now apply Hx.
      * congruence.
  - pose proof (no_smtp_fields domain w) as (Hs & He & Hd).
    rewrite He. split; [|split].
    + split; [congruence | intros [? _]; discriminate].
    + discriminate.
    + congruence.
Qed.

End VerifierFacts.

(** ** The sorter *)

Module SorterFacts.

(** The order of strings by bytes. *)
Lemma ascii_compare_lt_trans (a b c : ascii) :
  Ascii.compare a b = Lt -> Ascii.compare b c = Lt -> Ascii.compare a c = Lt.
Proof.
  unfold Ascii.compare. rewrite !N.compare_lt_iff. lia.
Qed.

Lemma ascii_compare_refl (a : ascii) : Ascii.compare a a = Eq.
Proof. unfold Ascii.compare. apply N.compare_refl. Qed.

Lemma string_compare_lt_trans (s t u : string) :
  String.compare s t = Lt -> String.compare t u = Lt ->
  String.compare s u = Lt.
Proof.
  revert t u. induction s as [|a s IH]; intros [|b t] [|c u]; simpl;
    try congruence.
  destruct (Ascii.compare a b) eqn:Hab; try discriminate;
    destruct (Ascii.compare b c) eqn:Hbc; try discriminate; intros H1 H2.
  - apply Ascii.compare_eq_iff in Hab, Hbc. subst.
    rewrite ascii_compare_refl. eauto.
  - apply Ascii.compare_eq_iff in Hab. subst. now rewrite Hbc.
  - apply Ascii.compare_eq_iff in Hbc. subst. now rewrite Hab.
  - now rewrite (ascii_compare_lt_trans _ _ _ Hab Hbc).
Qed.

Lemma ltb_asym (s t : string) : String.ltb s t = true -> String.ltb t s = false.
Proof.
  unfold String.ltb. rewrite (String.compare_antisym s t).
  now destruct (String.compare t s).
Qed.

(** [ltb t s = false] is [s <= t], and it is transitive. *)
Lemma not_ltb_trans (s t u : string) :
  String.ltb t s = false -> String.ltb u t = false -> String.ltb u s = false.
Proof.
  unfold String.ltb. intros H1 H2.
  destruct (String.compare u s) eqn:Hus; try reflexivity. exfalso.
  destruct (String.compare t s) eqn:Hts; try discriminate;
    destruct (String.compare u t) eqn:Hut; try discriminate.
  - apply String.compare_eq_iff in Hts, Hut. subst.
    pose proof (String.compare_antisym s s) as A. rewrite Hus in A.
    discriminate.
  - apply String.compare_eq_iff in Hts. subst. congruence.
  - apply String.compare_eq_iff in Hut. subst. congruence.
  - rewrite String.compare_antisym in Hts, Hut.
    destruct (String.compare s t) eqn:Hst; try discriminate.
    destruct (String.compare t u) eqn:Htu; try discriminate.
    pose proof (string_compare_lt_trans _ _ _ Hst Htu) as Hsu.
    rewrite String.compare_antisym, Hsu in Hus. discriminate.
Qed.

Lemma insertBy_perm (lt : Result -> Result -> bool) (x : Result)
  (l : list Result) :
  Permutation (insertBy lt x l) (x :: l).
Proof.
  induction l as [|y l IH]; simpl; [reflexivity|].
  destruct (lt x y); [reflexivity|].
  rewrite IH. apply perm_swap.
Qed.

Lemma sortSlice_perm (lt : Result -> Result -> bool) (l : list Result) :
  Permutation (sortSlice lt l) l.
Proof.
  induction l as [|x l IH]; simpl; [reflexivity|].
  rewrite insertBy_perm. now constructor.
Qed.

Lemma insertBy_sorted (x : Result) (l : list Result) :
  StronglySorted domainLe l -> StronglySorted domainLe (insertBy less x l).
Proof.
  induction 1 as [|y l Hs IH Hy]; simpl.
  - repeat constructor.
  - unfold less at 1. destruct (String.ltb (Domain x) (Domain y)) eqn:E.
    + constructor; [now constructor|].
      apply ltb_asym in E. constructor; [exact E|].
      rewrite Forall_forall in *. intros z Hz. unfold domainLe in *.
      eapply not_ltb_trans; [exact E | now apply Hy].
    + constructor; [exact IH|].
      rewrite Forall_forall in *. intros z Hz.
      apply (Permutation_in _ (insertBy_perm less x l)) in Hz.
      destruct Hz as [<-|Hz]; [exact E | now apply Hy].
Qed.

Lemma sortSlice_sorted (l : list Result) :
  StronglySorted domainLe (sortSlice less l).
Proof.
  induction l as [|x l IH]; simpl; [constructor|].
  now apply insertBy_sorted.
Qed.

End SorterFacts.
Import SorterFacts.

(** ** The pipeline *)

Section PipelineFacts.

Context {World : Type} {net : Network World}.
Variables (paced smtpCheck : bool).

Implicit Types (p : Pool World) (ws : list Worker) (x y : Worker).

Lemma checkDomain_Domain (d : string) (w : World) :
  Domain (outcome (checkDomain d smtpCheck) w) = d.
Proof.
  pose proof (checkDomain_dns_fields d smtpCheck w) as (-> & _).
  apply dnsStages_rest.
Qed.

(** *** Replacing one worker *)

Lemma setWorker_split ws (i : nat) y :
  nth_error ws i = Some y ->
  exists ws1 ws2,
    ws = ws1 ++ y :: ws2 /\ forall x, setWorker i x ws = ws1 ++ x :: ws2.
Proof.
  revert i. induction ws as [|z ws IH]; intros [|i] H; simpl in H;
    try discriminate.
  - injection H as ->. now exists [], ws.
  - destruct (IH i H) as (ws1 & ws2 & -> & Hset).
    exists (z :: ws1), ws2. split; [reflexivity|].
    intros x. simpl. now rewrite Hset.
Qed.

Lemma inflight_split ws1 y ws2 :
  inflight (ws1 ++ y :: ws2) = inflight ws1 ++ holds y ++ inflight ws2.
Proof. unfold inflight. now rewrite flat_map_app. Qed.

Lemma weight_split ws1 y ws2 :
  list_sum (map weight (ws1 ++ y :: ws2))
  = list_sum (map weight ws1) + weight y + list_sum (map weight ws2).
Proof. rewrite map_app, list_sum_app. simpl. lia. Qed.

Lemma gone_split ws1 x y ws2 :
  x <> Gone -> In Gone (ws1 ++ x :: ws2) -> In Gone (ws1 ++ y :: ws2).
Proof.
  intros Hx H. apply in_app_or in H. apply in_or_app.
  destruct H as [H|[H|H]]; [now left | congruence | right; now right].
Qed.

Lemma allGone_split ws1 y ws2 :
  forallb isGone (ws1 ++ y :: ws2) = true -> y = Gone.
Proof.
  rewrite forallb_app. simpl. rewrite !andb_true_iff.
  intros (_ & H & _). now destruct y.
Qed.

Lemma carries_split ws1 x y ws2 :
  Forall (carriesOutcome smtpCheck) (ws1 ++ y :: ws2) ->
  carriesOutcome smtpCheck x ->
  Forall (carriesOutcome smtpCheck) (ws1 ++ x :: ws2).
Proof.
  intros H Hx. apply Forall_app in H. destruct H as [H1 H2].
  apply Forall_app. split; [exact H1|]. inversion H2. now constructor.
Qed.

Lemma carries_at ws1 y ws2 :
  Forall (carriesOutcome smtpCheck) (ws1 ++ y :: ws2) ->
  carriesOutcome smtpCheck y.
Proof.
  intros H. apply Forall_app in H. destruct H as [_ H]. now inversion H.
Qed.

(** *** The invariant *)

Lemma initPool_Inv (concurrency : Z) (domains : list string) (w : World) :
  Inv smtpCheck (Z.to_nat concurrency) domains
      (initPool concurrency domains w).
Proof.
  constructor; simpl.
  - unfold inflight. induction (Z.to_nat concurrency); simpl; auto.
  - discriminate.
  - intros H. apply repeat_spec in H. discriminate.
  - discriminate.
  - apply repeat_length.
  - constructor.
  - induction (Z.to_nat concurrency); simpl; constructor; simpl; auto.
Qed.

Ltac worker_at H :=
  match type of H with
  | context [nth_error ?ws ?i] =>
      let E := fresh "E" in
      destruct (nth_error ws i) as [[| | | |]|] eqn:E; try discriminate H;
      let ws1 := fresh "ws1" in
      let ws2 := fresh "ws2" in
      let Hws := fresh "Hws" in
      let Hset := fresh "Hset" in
      destruct (setWorker_split _ _ _ E) as (ws1 & ws2 & Hws & Hset);
      rewrite ?Hset in H
  end.

Lemma fire_Inv (n : nat) (domains : list string) (a : Action) p p' :
  Inv smtpCheck n domains p ->
  fire paced smtpCheck a p = Some p' ->
  Inv smtpCheck n domains p'.
Proof.
  intros [Hperm Hjobs Hgone Hres Hlen Hcol Hsend] H.
  destruct p as [q jc ws col rc w lg]. simpl in *.
  destruct a as [i| |i|i|i|i|]; simpl in H.
  - (* Dispatch *)
    destruct q as [|d q]; [discriminate|]. worker_at H.
    injection H as <-. subst ws. rewrite inflight_split in Hperm.
    simpl in Hperm.
    constructor; simpl.
    + rewrite inflight_split.
      replace (holds (if paced then Pacing d else Checking d)) with [d]
        by now destruct paced.
      rewrite Hperm. apply Permutation_app_head.
      rewrite <- !app_assoc. apply Permutation_app_head. simpl.
      symmetry. apply Permutation_middle.
    + intros Hc. specialize (Hjobs Hc). discriminate.
    + intros Hg. apply Hgone. eapply gone_split; [|exact Hg].
      now destruct paced.
    + intros Hc. specialize (Hres Hc). apply allGone_split in Hres.
      discriminate.
    + rewrite <- Hlen, !length_app. reflexivity.
    + exact Hcol.
    + eapply carries_split; [exact Hsend|]. now destruct paced.
  - (* CloseJobs *)
    destruct q; [|discriminate]. destruct jc; [discriminate|].
    injection H as <-. constructor; simpl; auto.
  - (* Leave *)
    worker_at H. destruct jc; [|discriminate].
    injection H as <-. subst ws. rewrite inflight_split in Hperm.
    constructor; simpl; auto.
    + now rewrite inflight_split.
    + intros Hc. specialize (Hres Hc). apply allGone_split in Hres.
      discriminate.
    + rewrite <- Hlen, !length_app. reflexivity.
    + eapply carries_split; [exact Hsend|]. exact I.
  - (* Tick *)
    worker_at H. injection H as <-. subst ws.
    rewrite inflight_split in Hperm.
    constructor; simpl; auto.
    + now rewrite inflight_split.
    + intros Hg. apply Hgone. eapply gone_split; [|exact Hg]. discriminate.
    + intros Hc. specialize (Hres Hc). apply allGone_split in Hres.
      discriminate.
    + rewrite <- Hlen, !length_app. reflexivity.
    + eapply carries_split; [exact Hsend|]. exact I.
  - (* Verify *)
    worker_at H.
    pose proof (checkDomain_Domain d w) as Hd. unfold outcome in Hd.
    assert (Ho : IsOutcome smtpCheck (outcome (checkDomain d smtpCheck) w)).
    { exists w. now rewrite checkDomain_Domain. }
    unfold outcome in Ho.
    destruct (checkDomain d smtpCheck w) as [[r tr] w']. simpl in Hd, Ho.
    rewrite Hset in H. injection H as <-. subst ws.
    rewrite inflight_split in Hperm.
    constructor; simpl; auto.
    + rewrite inflight_split. simpl. now rewrite Hd.
    + intros Hg. apply Hgone. eapply gone_split; [|exact Hg]. discriminate.
    + intros Hc. specialize (Hres Hc). apply allGone_split in Hres.
      discriminate.
    + rewrite <- Hlen, !length_app. reflexivity.
    + eapply carries_split; [exact Hsend|]. exact Ho.
  - (* Collect *)
    worker_at H. destruct rc; [discriminate|].
    injection H as <-. subst ws. rewrite inflight_split in Hperm.
    simpl in Hperm.
    constructor; simpl; auto.
    + rewrite inflight_split, map_app. simpl. rewrite Hperm.
      rewrite <- !app_assoc. apply Permutation_app_head. simpl.
      symmetry. apply Permutation_middle.
    + intros Hg. apply Hgone. eapply gone_split; [|exact Hg]. discriminate.
    + discriminate.
    + rewrite <- Hlen, !length_app. reflexivity.
    + apply Forall_app. split; [exact Hcol|]. constructor; [|constructor].
      exact (carries_at _ _ _ Hsend).
    + eapply carries_split; [exact Hsend|]. exact I.
  - (* CloseResults *)
    destruct (forallb isGone ws) eqn:E; [|discriminate].
    destruct rc; [discriminate|]. injection H as <-.
    constructor; simpl; auto.
Qed.

Lemma exec_Inv (n : nat) (domains : list string) (sched : list Action) p p' :
  Inv smtpCheck n domains p ->
  exec paced smtpCheck sched p = Some p' ->
  Inv smtpCheck n domains p'.
Proof.
  revert p. induction sched as [|a sched IH]; intros p HI H; simpl in H.
  - now injection H as <-.
  - destruct (fire paced smtpCheck a p) as [p1|] eqn:E; [|discriminate].
    eapply IH; [|exact H]. eapply fire_Inv; eassumption.
Qed.

(** *** Every run comes to its end *)

Lemma workers_cases ws :
  (exists i d, nth_error ws i = Some (Pacing d))
  \/ (exists i d, nth_error ws i = Some (Checking d))
  \/ (exists i r, nth_error ws i = Some (Sending r))
  \/ (exists i, nth_error ws i = Some Idle)
  \/ forallb isGone ws = true.
Proof.
  induction ws as [|x ws IH].
  - repeat right. reflexivity.
  - destruct x as [|d|d|r|].
    + do 3 right. left. now exists 0.
    + left. now exists 0, d.
    + right. left. now exists 0, d.
    + do 2 right. left. now exists 0, r.
    + destruct IH as [(i & d & H)|[(i & d & H)|[(i & r & H)|[(i & H)|H]]]].
      * left. now exists (S i), d.
      * right. left. now exists (S i), d.
      * do 2 right. left. now exists (S i), r.
      * do 3 right. left. now exists (S i).
      * repeat right. exact H.
Qed.

(** A pool that is not finished can take a step. *)
Lemma fire_enabled p :
  finished p = false -> exists a p', fire paced smtpCheck a p = Some p'.
Proof.
  destruct p as [q jc ws col rc w lg]. unfold finished. simpl. intros ->.
  destruct (workers_cases ws)
    as [(i & d & H)|[(i & d & H)|[(i & r & H)|[(i & H)|H]]]].
  - exists (Tick i). simpl. rewrite H. eexists; reflexivity.
  - exists (Verify i). simpl. rewrite H.
    destruct (checkDomain d smtpCheck w) as [[r tr] w']. eexists; reflexivity.
  - exists (Collect i). simpl. rewrite H. eexists; reflexivity.
  - destruct q as [|d q].
    + destruct jc.
      * exists (Leave i). simpl. rewrite H. eexists; reflexivity.
      * exists CloseJobs. simpl. eexists; reflexivity.
    + exists (Dispatch i). simpl. rewrite H. eexists; reflexivity.
  - exists CloseResults. simpl. rewrite H. eexists; reflexivity.
Qed.

(** Every step uses up some of the budget. *)
Lemma fire_budget (a : Action) p p' :
  fire paced smtpCheck a p = Some p' -> budget p' < budget p.
Proof.
  intros H. destruct p as [q jc ws col rc w lg].
  destruct a as [i| |i|i|i|i|]; simpl in H.
  - destruct q as [|d q]; [discriminate|]. worker_at H.
    injection H as <-. subst ws. unfold budget. simpl.
    rewrite !weight_split. destruct paced; simpl; lia.
  - destruct q; [|discriminate]. destruct jc; [discriminate|].
    injection H as <-. unfold budget. simpl. lia.
  - worker_at H. destruct jc; [|discriminate].
    injection H as <-. subst ws. unfold budget. simpl.
    rewrite !weight_split. simpl. lia.
  - worker_at H. injection H as <-. subst ws. unfold budget. simpl.
    rewrite !weight_split. simpl. lia.
  - worker_at H. destruct (checkDomain d smtpCheck w) as [[r tr] w'].
    rewrite Hset in H. injection H as <-. subst ws. unfold budget. simpl.
    rewrite !weight_split. simpl. lia.
  - worker_at H. destruct rc; [discriminate|].
    injection H as <-. subst ws. unfold budget. simpl.
    rewrite !weight_split. simpl. lia.
  - destruct (forallb isGone ws); [|discriminate].
    destruct rc; [discriminate|]. injection H as <-.
    unfold budget. simpl. lia.
Qed.

(** From every pool some schedule leads to the end, and no schedule is
    longer than the budget. *)
Lemma run_to_end p :
  exists sched p', exec paced smtpCheck sched p = Some p' /\ finished p' = true.
Proof.
  remember (budget p) as b eqn:Hb. revert p Hb.
  induction b as [b IH] using lt_wf_ind. intros p ->.
  destruct (finished p) eqn:F.
  - now exists [], p.
  - destruct (fire_enabled p F) as (a & p1 & Hf).
    destruct (IH _ (fire_budget _ _ _ Hf) p1 eq_refl) as (sched & p' & He & F').
    exists (a :: sched), p'. simpl. rewrite Hf. auto.
Qed.

Lemma exec_length (sched : list Action) p p' :
  exec paced smtpCheck sched p = Some p' -> length sched + budget p' <= budget p.
Proof.
  revert p. induction sched as [|a sched IH]; intros p H; simpl in H.
  - injection H as <-. simpl. lia.
  - destruct (fire paced smtpCheck a p) as [p1|] eqn:E; [|discriminate].
    apply IH in H. apply fire_budget in E. simpl. lia.
Qed.

(** *** What is collected at the end *)

Lemma allGone_inflight ws : forallb isGone ws = true -> inflight ws = [].
Proof.
  induction ws as [|x ws IH]; simpl; [reflexivity|].
  rewrite andb_true_iff. intros [Hx H]. destruct x; try discriminate.
  now apply IH.
Qed.

Lemma finished_collected (n : nat) (domains : list string) p :
  Inv smtpCheck n domains p -> 1 <= n -> finished p = true ->
  Permutation domains (map Domain (collected p)).
Proof.
  intros [Hperm Hjobs Hgone Hres Hlen _ _] Hn F.
  specialize (Hres F). rewrite (allGone_inflight _ Hres) in Hperm.
  rewrite Hjobs in Hperm; [now rewrite !app_nil_r in Hperm|].
  apply Hgone. destruct (workers p) as [|x ws]; simpl in *; [lia|].
  apply andb_true_iff in Hres. destruct Hres as [Hx _].
  destruct x; try discriminate. now left.
Qed.

Lemma initPool_budget (concurrency : Z) (domains : list string) (w : World) :
  budget (initPool concurrency domains w)
  = 5 * length domains + Z.to_nat concurrency + 2.
Proof.
  unfold budget. simpl.
  assert (H : list_sum (map weight (repeat Idle (Z.to_nat concurrency)))
              = Z.to_nat concurrency).
  { induction (Z.to_nat concurrency); simpl; congruence. }
  rewrite H. lia.
Qed.

(** C1.  With at least one worker, for every list of domains and every
    order in which the goroutines take their steps: the run can always be
    brought to its end and has a bounded number of steps; at its end the
    emitted sequence has as many records as there are input domains, the
    domains of the records are the input domains with their repetitions,
    each record is the outcome of [checkDomain] for its domain, and the
    sequence is sorted by domain, ascending in the order of strings by
    bytes. *)
Theorem pipeline_outcomes_sorted (concurrency : Z) (domains : list string)
  (w : World) :
  (1 <= concurrency)%Z ->
  forall sched p,
    exec paced smtpCheck sched (initPool concurrency domains w) = Some p ->
    (exists more p',
        exec paced smtpCheck more p = Some p' /\ finished p' = true)
    /\ length sched <= 5 * length domains + Z.to_nat concurrency + 2
    /\ (finished p = true ->
        length (emitted p) = length domains
        /\ Permutation (map Domain (emitted p)) domains
        /\ Forall (IsOutcome smtpCheck) (emitted p)
        /\ StronglySorted domainLe (emitted p)).
Proof.
  intros Hc sched p He. split; [apply run_to_end|]. split.
  - apply exec_length in He. rewrite initPool_budget in He. lia.
  - intros F.
    pose proof (exec_Inv _ _ _ _ _ (initPool_Inv concurrency domains w) He)
      as HI.
    pose proof (finished_collected _ _ _ HI ltac:(lia) F) as Hp.
    pose proof (sortSlice_perm less (collected p)) as Hs.
    fold (emitted p) in Hs.
    assert (Hd : Permutation (map Domain (emitted p)) domains).
    { rewrite Hp. now apply Permutation_map. }
    repeat split.
    + rewrite <- (length_map Domain). now apply Permutation_length.
    + exact Hd.
    + eapply Permutation_Forall; [symmetry; exact Hs|]. apply HI.
    + apply sortSlice_sorted.
Qed.

(** Without a worker nothing is collected: [wg.Wait()] returns at once. *)
Lemma no_worker_no_outcome (concurrency : Z) (domains : list string)
  (w : World) :
  (concurrency <= 0)%Z ->
  exists p,
    exec paced smtpCheck [CloseResults] (initPool concurrency domains w)
    = Some p
    /\ finished p = true /\ emitted p = [].
Proof.
  intros H. unfold initPool.
  replace (Z.to_nat concurrency) with 0 by lia.
  eexists. simpl. repeat split.
Qed.

(** *** One domain does not reach into the outcome of another *)

Lemma dnsStages_stateless (d : string) (w w' : World) :
  Stateless -> outcome (dnsStages d) w = outcome (dnsStages d) w'.
Proof.
  intros HS. rewrite !dnsStages_outcome. cbv zeta.
  destruct (HS w w') as (-> & _).
  destruct (HS (snd (LookupMX d w)) (snd (LookupMX d w'))) as (_ & -> & _).
  destruct (HS (snd (LookupTXT d (snd (LookupMX d w))))
               (snd (LookupTXT d (snd (LookupMX d w'))))) as (_ & -> & _).
  reflexivity.
Qed.

Lemma probeTargets_stateless (targets : list string) (res : Result)
  (lastErr : option error) (w w' : World) :
  Stateless ->
  snd (outcome (probeTargets targets res lastErr) w)
  = snd (outcome (probeTargets targets res lastErr) w')
  /\ sameButLatency (fst (outcome (probeTargets targets res lastErr) w))
                    (fst (outcome (probeTargets targets res lastErr) w')).
Proof.
  intros HS. revert lastErr w w'.
  induction targets as [|h rest IH]; intros lastErr w w'.
  - split; reflexivity.
  - unfold outcome. rewrite !probeTargets_cons.
    destruct (Now w) as [s1 w1], (Now w') as [s1' w1'].
    destruct (HS w1 w1') as (_ & _ & Hd). specialize (Hd "tcp" (port25 h)).
    destruct (DialContext "tcp" (port25 h) w1) as [r1 w2],
             (DialContext "tcp" (port25 h) w1') as [r1' w2'].
    simpl in Hd. subst r1'. destruct r1 as [conn|err].
    + destruct (smtpDialog conn w2) as [[u dlg] w3],
               (smtpDialog conn w2') as [[u' dlg'] w3'].
      destruct (Now w3) as [t w4], (Now w3') as [t' w4']. simpl.
      split; reflexivity.
    + specialize (IH (Some err) w2 w2'). unfold outcome in IH.
      destruct (probeTargets rest res (Some err) w2) as [[x tr] w3],
               (probeTargets rest res (Some err) w2') as [[x' tr'] w3'].
      exact IH.
Qed.

Lemma sameButLatency_set_Error (s : string) (r r' : Result) :
  sameButLatency r r' ->
  sameButLatency (set_Error s r) (set_Error s r').
Proof.
  unfold sameButLatency. destruct r, r'. simpl. intros H.
  injection H as -> -> -> -> -> -> -> -> ->. reflexivity.
Qed.

(** On a stateless network the outcome of a domain is the same in every
    world, up to the latency. *)
Lemma checkDomain_stateless (d : string) (w w' : World) :
  Stateless ->
  sameButLatency (outcome (checkDomain d smtpCheck) w)
                 (outcome (checkDomain d smtpCheck) w').
Proof.
  intros HS. destruct smtpCheck.
  - unfold outcome. rewrite !checkDomain_split. unfold bind.
    pose proof (dnsStages_stateless d w w' HS) as H0. unfold outcome in H0.
    destruct (dnsStages d w) as [[r0 t0] w0],
             (dnsStages d w') as [[r0' t0'] w0'].
    simpl in H0. subst r0'. unfold smtpStage, bind.
    pose proof (probeTargets_stateless (probeTargetsOf d r0) r0 None w0 w0' HS)
      as [H1 H2].
    unfold outcome in H1, H2.
    destruct (probeTargets (probeTargetsOf d r0) r0 None w0)
      as [[[r1 le] tr1] w1],
             (probeTargets (probeTargetsOf d r0) r0 None w0')
      as [[[r1' le'] tr1'] w1'].
    simpl in H1, H2. subst le'.
    destruct le as [e|]; simpl; [now apply sameButLatency_set_Error | exact H2].
  - unfold outcome. rewrite !checkDomain_no_smtp. simpl.
    now rewrite (dnsStages_stateless d w w' HS).
Qed.

(** C7.  In every outcome, [Error] is not empty exactly when the SMTP check
    was asked for and every connection attempt of the run failed; the
    attempts were then made on all the probe targets in order, [Error] is
    the text of the error of the last attempt and [SMTPReach] is false.
    Hence a non-empty [Error] comes with the check asked for and
    [SMTPReach = false], also for every record the pipeline emits; and on
    a network whose answers do not depend on what was asked before, each
    emitted record is, up to its latency, the outcome of checking its
    domain alone, whatever the other domains of the run and their
    failures. *)
Theorem error_only_when_all_targets_fail :
  (forall (domain : string) (w : World),
      let r := outcome (checkDomain domain smtpCheck) w in
      let tr := events (checkDomain domain smtpCheck) w in
      let targets :=
        match MXHosts r with [] => [domain] | _ :: _ => MXHosts r end in
      (Error r <> "" <-> smtpCheck = true /\ Forall dialFailed (dialsOf tr))
      /\ (smtpCheck = true -> Forall dialFailed (dialsOf tr) ->
          map fst (dialsOf tr) = map port25 targets
          /\ exists e, snd (last (dialsOf tr) ("", None)) = Some e
                       /\ Error r = ErrorText e /\ SMTPReach r = false)
      /\ (Error r <> "" -> smtpCheck = true /\ SMTPReach r = false))
  /\ (forall (concurrency : Z) (domains : list string) (w0 : World)
             (sched : list Action) (p : Pool World),
         exec paced smtpCheck sched (initPool concurrency domains w0) = Some p ->
         forall r, In r (emitted p) ->
           (Error r <> "" -> smtpCheck = true /\ SMTPReach r = false)
           /\ (Stateless ->
               sameButLatency r (outcome (checkDomain (Domain r) smtpCheck) w0))).
Proof.
  split.
  - intros domain w. apply error_iff_all_failed.
  - intros concurrency domains w0 sched p He r Hr.
    pose proof (exec_Inv _ _ _ _ _ (initPool_Inv concurrency domains w0) He)
      as HI.
    apply (Permutation_in _ (sortSlice_perm less (collected p))) in Hr.
    pose proof (inv_collected _ _ _ _ HI) as Hc.
    rewrite Forall_forall in Hc. destruct (Hc r Hr) as [w Hw].
    split.
    + rewrite Hw. apply error_iff_all_failed.
    + intros HS. rewrite Hw at 1. now apply checkDomain_stateless.
Qed.

(** *** The limiter in the pipeline *)

Lemma pastTick_split ws1 y ws2 :
  list_sum (map pastTick (ws1 ++ y :: ws2))
  = list_sum (map pastTick ws1) + pastTick y + list_sum (map pastTick ws2).
Proof. rewrite map_app, list_sum_app. simpl. lia. Qed.

(** With the limiter on, every domain that is checked has taken one tick. *)
Lemma fire_pastLimiter (a : Action) p p' :
  paced = true ->
  fire paced smtpCheck a p = Some p' ->
  pastLimiter p' = pastLimiter p + (if isTick a then 1 else 0).
Proof.
  intros -> H. destruct p as [q jc ws col rc w lg].
  destruct a as [i| |i|i|i|i|]; simpl in H.
  - destruct q as [|d q]; [discriminate|]. worker_at H.
    injection H as <-. subst ws. unfold pastLimiter. simpl.
    rewrite !pastTick_split. simpl. lia.
  - destruct q; [|discriminate]. destruct jc; [discriminate|].
    injection H as <-. unfold pastLimiter. simpl. lia.
  - worker_at H. destruct jc; [|discriminate].
    injection H as <-. subst ws. unfold pastLimiter. simpl.
    rewrite !pastTick_split. simpl. lia.
  - worker_at H. injection H as <-. subst ws. unfold pastLimiter. simpl.
    rewrite !pastTick_split. simpl. lia.
  - worker_at H. destruct (checkDomain d smtpCheck w) as [[r tr] w'].
    rewrite Hset in H. injection H as <-. subst ws. unfold pastLimiter. simpl.
    rewrite !pastTick_split. simpl. lia.
  - worker_at H. destruct rc; [discriminate|].
    injection H as <-. subst ws. unfold pastLimiter. simpl.
    rewrite !pastTick_split, length_app. simpl. lia.
  - destruct (forallb isGone ws); [|discriminate].
    destruct rc; [discriminate|]. injection H as <-.
    unfold pastLimiter. simpl. lia.
Qed.

Lemma exec_pastLimiter (sched : list Action) p p' :
  paced = true ->
  exec paced smtpCheck sched p = Some p' ->
  pastLimiter p' = pastLimiter p + ticksOf sched.
Proof.
  intros Hp. revert p. induction sched as [|a sched IH]; intros p H;
    simpl in H.
  - injection H as <-. unfold ticksOf. simpl. lia.
  - destruct (fire paced smtpCheck a p) as [p1|] eqn:E; [|discriminate].
    rewrite (IH _ H), (fire_pastLimiter _ _ _ Hp E).
    unfold ticksOf. simpl. destruct (isTick a); simpl; lia.
Qed.

(** With the limiter on and at least one worker, a run to the end over [M]
    domains receives from [tick] exactly [M] times. *)
Lemma paced_run_ticks (concurrency : Z) (domains : list string) (w : World)
  (sched : list Action) p :
  paced = true -> (1 <= concurrency)%Z ->
  exec paced smtpCheck sched (initPool concurrency domains w) = Some p ->
  finished p = true ->
  ticksOf sched = length domains.
Proof.
  intros Hp Hc He F.
  pose proof (exec_Inv _ _ _ _ _ (initPool_Inv concurrency domains w) He)
    as HI.
  pose proof (finished_collected _ _ _ HI ltac:(lia) F) as Hperm.
  pose proof (exec_pastLimiter _ _ _ Hp He) as Ha.
  pose proof (inv_results _ _ _ _ HI F) as Hg.
  unfold pastLimiter in Ha. simpl in Ha.
  assert (H0 : forall ws, forallb isGone ws = true ->
                          list_sum (map pastTick ws) = 0).
  { induction ws as [|x ws IH]; simpl; [reflexivity|].
    rewrite andb_true_iff. intros [Hx H]. destruct x; try discriminate.
    now apply IH. }
  assert (H1 : list_sum (map pastTick (repeat Idle (Z.to_nat concurrency)))
               = 0).
  { clear. induction (Z.to_nat concurrency) as [|n IH]; simpl; auto. }
  rewrite (H0 _ Hg), H1 in Ha.
  apply Permutation_length in Hperm. rewrite length_map in Hperm. lia.
Qed.

(** With the limiter off no worker ever stands at [<-tick]. *)
Lemma unpaced_never_waits (concurrency : Z) (domains : list string)
  (w : World) (sched : list Action) p :
  paced = false ->
  exec paced smtpCheck sched (initPool concurrency domains w) = Some p ->
  existsb isPacing (workers p) = false /\ ticksOf sched = 0.
Proof.
  intros Hp.
  assert (Hstep : forall a q q',
             existsb isPacing (workers q) = false ->
             fire paced smtpCheck a q = Some q' ->
             existsb isPacing (workers q') = false /\ isTick a = false).
  { intros a q q' Hq H. destruct q as [qu jc ws col rc w0 lg]. simpl in Hq.
    assert (Hsplit : forall ws1 y ws2,
               existsb isPacing (ws1 ++ y :: ws2)
               = existsb isPacing ws1 || isPacing y || existsb isPacing ws2).
    { intros. rewrite existsb_app. simpl. now rewrite orb_assoc. }
    destruct a as [i| |i|i|i|i|]; simpl in H.
    - destruct qu as [|d qu]; [discriminate|]. worker_at H.
      injection H as <-. subst ws. simpl. rewrite Hsplit in *. rewrite Hp.
      simpl in *. auto.
    - destruct qu; [|discriminate]. destruct jc; [discriminate|].
      injection H as <-. simpl. auto.
    - worker_at H. destruct jc; [|discriminate].
      injection H as <-. subst ws. simpl. rewrite Hsplit in *.
      simpl in *. auto.
    - worker_at H. subst ws. rewrite Hsplit in Hq. simpl in Hq.
      rewrite orb_true_r in Hq. discriminate.
    - worker_at H. destruct (checkDomain d smtpCheck w0) as [[r tr] w'].
      rewrite Hset in H. injection H as <-. subst ws. simpl.
      rewrite Hsplit in *. simpl in *. auto.
    - worker_at H. destruct rc; [discriminate|].
      injection H as <-. subst ws. simpl. rewrite Hsplit in *.
      simpl in *. auto.
    - destruct (forallb isGone ws); [|discriminate].
      destruct rc; [discriminate|]. injection H as <-. simpl. auto. }
  assert (Hinit : existsb isPacing
                    (workers (initPool concurrency domains w)) = false).
  { simpl. induction (Z.to_nat concurrency); simpl; auto. }
  revert Hinit. generalize (initPool concurrency domains w).
  induction sched as [|a sched IH]; intros q Hq H; simpl in H.
  - injection H as <-. auto.
  - destruct (fire paced smtpCheck a q) as [q1|] eqn:E; [|discriminate].
    destruct (Hstep _ _ _ Hq E) as [Hq1 Ha].
    destruct (IH _ Hq1 H) as [H1 H2]. split; [exact H1|].
    unfold ticksOf in *. simpl. now rewrite Ha.
Qed.

End PipelineFacts.

(** ** The limiter's interval *)

(** For a rate of at most [10^9] the interval is positive and is [1/rate]
    seconds rounded down to whole nanoseconds. *)
Lemma tickInterval_floor (rate : Z) :
  (0 < rate <= Second)%Z ->
  (0 < tickInterval rate
   /\ rate * tickInterval rate <= Second < rate * (tickInterval rate + 1))%Z.
Proof.
  intros H. unfold tickInterval, Second in *.
  rewrite Z.quot_div_nonneg by lia.
  pose proof (Z.mul_div_le 1000000000 rate ltac:(lia)).
  pose proof (Z.mul_succ_div_gt 1000000000 rate ltac:(lia)).
  assert (1 <= 1000000000 / rate)%Z by (apply Z.div_le_lower_bound; lia).
  lia.
Qed.

(** Above [10^9] the interval is zero. *)
Lemma tickInterval_zero (rate : Z) :
  (Second < rate)%Z -> tickInterval rate = 0%Z.
Proof.
  intros H. unfold tickInterval, Second in *. apply Z.quot_small. lia.
Qed.

(** ** Runs of the definitions *)

Module Examples.

(** The example of the specification for the SPF scan. *)
Example scanSPF_spec_example :
  let r := scanSPF ["v=spf1 include:_spf.example.com ~all"; "other=1"]
                   (newResult "example.com") in
  HasSPF r = true /\ SPF r = "v=spf1 include:_spf.example.com ~all".
Proof. split; reflexivity. Qed.

Example scanSPF_no_match :
  HasSPF (scanSPF ["other=1"; " v=spf1 -all"; "V=SPF1"] (newResult "d")) = false.
Proof. reflexivity. Qed.

Example scanDMARC_first :
  DMARC (scanDMARC ["x"; "v=DMARC1; p=none"; "v=DMARC1; p=reject"]
                   (newResult "d")) = "v=DMARC1; p=none".
Proof. reflexivity. Qed.

Example TrimSuffix_examples :
  TrimSuffix "mx.example.com." "." = "mx.example.com"
  /\ TrimSuffix "mx.example.com" "." = "mx.example.com"
  /\ TrimSuffix "mx.." "." = "mx." /\ TrimSuffix "." "." = "".
Proof. repeat split; reflexivity. Qed.

Example JoinHostPort_examples :
  JoinHostPort "mx.example.com" "25" = "mx.example.com:25"
  /\ JoinHostPort "::1" "25" = "[::1]:25".
Proof. split; reflexivity. Qed.

Example endsResponse_examples :
  endsResponse "250-SIZE 1000" = false /\ endsResponse "250 HELP" = true
  /\ endsResponse "999-anything" = false /\ endsResponse "ok" = true
  /\ endsResponse "" = true.
Proof. repeat split; reflexivity. Qed.

Example checkDomain_reachable :
  outcome (DemoRun.check "example.com" true) 0%Z
  = mkResult "example.com" true ["mx1.example.com"; "mx2.example.com"]
             true "v=spf1 include:_spf.example.com ~all"
             true "v=DMARC1; p=reject" true 4 "".
Proof. reflexivity. Qed.

Example checkDomain_unreachable :
  outcome (DemoRun.check "nope.org" true) 0%Z
  = mkResult "nope.org" false [] false "" false "" false 0
             "dial tcp nope.org:25: connect: connection refused".
Proof. reflexivity. Qed.

Example pipeline_run :
  map Domain (collected DemoRun.final) = ["nope.org"; "example.com"; "nope.org"]
  /\ map Domain (emitted DemoRun.final)
     = ["example.com"; "nope.org"; "nope.org"].
Proof. split; reflexivity. Qed.

Example tickInterval_examples :
  tickInterval 4 = 250000000%Z /\ tickInterval 3 = 333333333%Z
  /\ tickInterval 2000000000 = 0%Z.
Proof. repeat split; reflexivity. Qed.

End Examples.

(** ** The properties on the example network *)

Module Witnesses.

Import DemoRun.

Lemma pipeline_outcomes_sorted_witness :
  (1 <= 2)%Z
  /\ exec (net := Demo.net) true false DemoRun.sched DemoRun.start
     = Some DemoRun.final
  /\ (exists more p',
         exec (net := Demo.net) true false more DemoRun.final = Some p'
         /\ finished p' = true)
  /\ length DemoRun.sched <= 5 * length DemoRun.domains + Z.to_nat 2 + 2
  /\ (finished DemoRun.final = true ->
      length (emitted DemoRun.final) = length DemoRun.domains
      /\ Permutation (map Domain (emitted DemoRun.final)) DemoRun.domains
      /\ Forall (IsOutcome (net := Demo.net) false) (emitted DemoRun.final)
      /\ StronglySorted domainLe (emitted DemoRun.final)).
Proof.
  split; [lia|]. split; [vm_compute; reflexivity|].
  apply (pipeline_outcomes_sorted (net := Demo.net) true false
           2 DemoRun.domains 0%Z ltac:(lia) DemoRun.sched DemoRun.final).
  vm_compute. reflexivity.
Defined.

Lemma spf_first_match_wins_witness :
  HasSPF (outcome (check "example.com" false) 0%Z) = true
  /\ SPF (outcome (check "example.com" false) 0%Z)
     = "v=spf1 include:_spf.example.com ~all".
Proof.
  apply (proj1 (spf_first_match_wins (net := Demo.net) "example.com" false 0%Z)
           eq_refl ["other=1"] _ ["v=spf1 -all"] eq_refl).
  - constructor; [|constructor]. intros [t Ht]. discriminate Ht.
  - exists " include:_spf.example.com ~all". reflexivity.
Defined.

Lemma dmarc_first_match_wins_witness :
  HasDMARC (outcome (check "example.com" true) 0%Z) = true
  /\ DMARC (outcome (check "example.com" true) 0%Z) = "v=DMARC1; p=reject".
Proof.
  apply (proj1 (dmarc_first_match_wins (net := Demo.net) "example.com" true 0%Z)
           eq_refl [] _ [] eq_refl).
  - constructor.
  - exists "; p=reject". reflexivity.
Defined.

Lemma mx_hosts_of_lookup_witness :
  HasMX (outcome (check "example.com" false) 0%Z) = true
  /\ MXHosts (outcome (check "example.com" false) 0%Z)
     = ["mx1.example.com"; "mx2.example.com"]
  /\ HasMX (outcome (check "nope.org" true) 0%Z) = false
  /\ MXHosts (outcome (check "nope.org" true) 0%Z) = [].
Proof.
  destruct (proj1 (proj2 (mx_hosts_of_lookup (net := Demo.net)
                            "example.com" false 0%Z)) eq_refl)
    as (H1 & H2 & _).
  { discriminate. }
  destruct (proj1 (mx_hosts_of_lookup (net := Demo.net) "nope.org" true 0%Z))
    as (H3 & H4).
  { left. discriminate. }
  repeat split; assumption.
Defined.

Lemma first_reachable_target_wins_witness :
  In ("mx2.example.com:25", None)
     (dialsOf (events (check "example.com" true) 0%Z))
  /\ SMTPReach (outcome (check "example.com" true) 0%Z) = true
  /\ Error (outcome (check "example.com" true) 0%Z) = "".
Proof.
  assert (H : In ("mx2.example.com:25", None)
                 (dialsOf (events (check "example.com" true) 0%Z))).
  { right. left. reflexivity. }
  split; [exact H|].
  destruct (proj2 (first_reachable_target_wins (net := Demo.net)
                     "example.com" 0%Z) _ H)
    as (pre & h & post & errs & st & t & before & dlg
        & _ & _ & _ & _ & _ & _ & Hs & _ & He).
  split; assumption.
Defined.

Lemma error_only_when_all_targets_fail_witness :
  Error (outcome (check "nope.org" true) 0%Z) <> ""
  /\ (forall r, In r (emitted DemoRun.final) ->
        sameButLatency r (outcome (check (Domain r) false) 0%Z)).
Proof.
  split.
  - apply (proj1 (error_only_when_all_targets_fail (net := Demo.net) true true)
             "nope.org" 0%Z).
    split; [reflexivity|]. constructor; [discriminate | constructor].
  - intros r Hr.
    apply (proj2 (error_only_when_all_targets_fail (net := Demo.net)
                    true false)
             2%Z DemoRun.domains 0%Z DemoRun.sched DemoRun.final);
      [vm_compute; reflexivity | exact Hr |].
    intros w w'. repeat split.
Defined.

Lemma ehlo_reading_stops_at_final_line_witness :
  events (smtpDialog (net := Demo.net)
            [Some "220 mx2 ESMTP"; Some "250-mx2 greets you";
             Some "250-SIZE 1000"; Some "250 HELP"; Some "221 bye"]) 0%Z
  = [EvNow 0; EvRead (Some "220 mx2 ESMTP");
     EvWrite ("EHLO example.com" ++ CRLF);
     EvRead (Some "250-mx2 greets you"); EvRead (Some "250-SIZE 1000");
     EvRead (Some "250 HELP");
     EvWrite ("QUIT" ++ CRLF); EvClose]
  /\ events (smtpDialog (net := Demo.net)
               [None; Some "250-mx2 greets you"; None; Some "250 HELP"]) 0%Z
     = [EvNow 0; EvRead None; EvWrite ("EHLO example.com" ++ CRLF);
        EvRead (Some "250-mx2 greets you"); EvRead None;
        EvWrite ("QUIT" ++ CRLF); EvClose].
Proof.
  split.
  - apply (proj1 (ehlo_reading_stops_at_final_line (net := Demo.net)
                    [Some "220 mx2 ESMTP"; Some "250-mx2 greets you";
                     Some "250-SIZE 1000"; Some "250 HELP"; Some "221 bye"]
                    0%Z)
             ["250-mx2 greets you"; "250-SIZE 1000"] "250 HELP"
             [Some "221 bye"] eq_refl).
    + repeat constructor; do 4 eexists; reflexivity.
    + intros (a & b & c & rest & H). discriminate H.
  - apply (proj1 (proj2 (ehlo_reading_stops_at_final_line (net := Demo.net)
                    [None; Some "250-mx2 greets you"; None; Some "250 HELP"]
                    0%Z))
             ["250-mx2 greets you"] [None; Some "250 HELP"] eq_refl).
    + repeat constructor; do 4 eexists; reflexivity.
    + exact I.
Defined.

Lemma unreachable_has_zero_latency_witness :
  SMTPReach (outcome (check "nope.org" true) 0%Z) = false
  /\ LatencyMs (outcome (check "nope.org" true) 0%Z) = 0%Z.
Proof.
  split; [reflexivity|].
  apply (unreachable_has_zero_latency (net := Demo.net) "nope.org" true 0%Z).
  reflexivity.
Defined.

End Witnesses.
